(** * Timer: a pausable wrapper around setTimeout / setInterval

    Shallow embedding of [src/Timer.ts].  A [Timer] object is a reference
    (an index into the object store [heap]); the three module-level
    collections [TIMERS], [UUID_MAP] and [PROMISE_RESOLVE_FUNCTION_MAP] are
    fields of the global state [world], next to the host runtime's table of
    armed native timers and a log of the effects that leave the module
    (native calls, callback invocations, promise resolutions).

    Modelling conventions:
    - the user callback is client code: an invocation is recorded as
      [Callback t] in the log, after which the client code runs; it may call
      the API of this module and it may throw.  The closures handed to the
      host take that code as their argument [client]; [fire h] is the firing
      whose callback returns at once, and the section on callbacks below
      gives the runs in which it does more;
    - a promise is identified with its resolve function; [Resolve p] in the
      log is the call of that function, and the promise counts as resolved
      from the operation in which the call happens (the microtask hop of the
      host is not modelled);
    - real time is abstracted: a native timer that is armed may fire, which
      is the event [fire h]. *)

From stdpp Require Import gmap list strings.

(** ** Data *)

(** Fields of a [Timer] instance.  The field [callback] holds client code;
    what that code does is chosen when it is invoked, see [Timer.callback]. *)
Record TimerObj := mkTimer {
  duration : nat;
  repeat : bool;
  isRunning : bool
}.

Inductive kind := Timeout | Interval.

(** What can be thrown: the [TypeError] of this module, and whatever the
    client's callback throws. *)
Inductive error := TypeError (msg : string) | ClientError.

(** Effects visible outside of the module, most recent first. *)
Inductive event :=
  | SetTimeout (h this d : nat)
  | SetInterval (h this d : nat)
  | ClearTimeout (h : nat)
  | ClearInterval (h : nat)
  | Callback (this : nat)
  | Resolve (p : nat).

Global Instance kind_eq_dec : EqDecision kind.
Proof. solve_decision. Defined.
Global Instance event_eq_dec : EqDecision event.
Proof. solve_decision. Defined.

Record world := mkWorld {
  heap : list TimerObj;                           (* constructed Timer objects *)
  TIMERS : list nat;                              (* Set<ITimer>, insertion order *)
  UUID_MAP : gmap nat nat;                        (* WeakMap<ITimer, UUID> *)
  PROMISE_RESOLVE_FUNCTION_MAP : gmap nat nat;    (* WeakMap<ITimer, resolve> *)
  armed : gmap nat (nat * kind);                  (* host: handle -> owner, kind *)
  next_uuid : nat;                                (* host: next native handle *)
  next_promise : nat;                             (* host: next promise *)
  log : list event
}.

Definition init : world :=
  mkWorld [] [] ∅ ∅ ∅ 0 0 [].

(** ** Exceptions and state *)

Inductive result (A : Type) :=
  | Ok (a : A)
  | Throw (e : error).
Arguments Ok {A} a.
Arguments Throw {A} e.

(** A computation returns or throws, and in both cases leaves a state. *)
Definition M (A : Type) : Type := world → result A * world.

Definition ret {A} (a : A) : M A := λ σ, (Ok a, σ).
Definition throw {A} (e : error) : M A := λ σ, (Throw e, σ).
Definition bind {A B} (m : M A) (k : A → M B) : M B :=
  λ σ, match m σ with
       | (Ok a, σ') => k a σ'
       | (Throw e, σ') => (Throw e, σ')
       end.
Definition gets {A} (f : world → A) : M A := λ σ, (Ok (f σ), σ).
Definition modify (f : world → world) : M unit := λ σ, (Ok tt, f σ).
Definition when (b : bool) (m : M unit) : M unit := if b then m else ret tt.

Notation "'let*' x ':=' m 'in' k" := (bind m (λ x, k))
  (at level 10, x name, m at level 100, k at level 200).
Notation "m ';;' k" := (bind m (λ _, k))
  (at level 100, k at level 200, right associativity).

(** ** Field and map access *)

Definition get_isRunning (objs : list TimerObj) (this : nat) : bool :=
  match objs !! this with Some o => isRunning o | None => false end.
Definition get_repeat (objs : list TimerObj) (this : nat) : bool :=
  match objs !! this with Some o => repeat o | None => false end.
Definition get_duration (objs : list TimerObj) (this : nat) : nat :=
  match objs !! this with Some o => duration o | None => 0 end.

Definition set_running (b : bool) (o : TimerObj) : TimerObj :=
  mkTimer (duration o) (repeat o) b.

Definition set_isRunning (this : nat) (b : bool) : M unit :=
  modify (λ σ, mkWorld (alter (set_running b) this (heap σ))
    (TIMERS σ) (UUID_MAP σ) (PROMISE_RESOLVE_FUNCTION_MAP σ)
    (armed σ) (next_uuid σ) (next_promise σ) (log σ)).

Definition with_TIMERS (f : list nat → list nat) : M unit :=
  modify (λ σ, mkWorld (heap σ) (f (TIMERS σ)) (UUID_MAP σ)
    (PROMISE_RESOLVE_FUNCTION_MAP σ) (armed σ) (next_uuid σ)
    (next_promise σ) (log σ)).

Definition with_UUID_MAP (f : gmap nat nat → gmap nat nat) : M unit :=
  modify (λ σ, mkWorld (heap σ) (TIMERS σ) (f (UUID_MAP σ))
    (PROMISE_RESOLVE_FUNCTION_MAP σ) (armed σ) (next_uuid σ)
    (next_promise σ) (log σ)).

Definition with_PROMISE_RESOLVE_FUNCTION_MAP
    (f : gmap nat nat → gmap nat nat) : M unit :=
  modify (λ σ, mkWorld (heap σ) (TIMERS σ) (UUID_MAP σ)
    (f (PROMISE_RESOLVE_FUNCTION_MAP σ)) (armed σ) (next_uuid σ)
    (next_promise σ) (log σ)).

Definition with_armed
    (f : gmap nat (nat * kind) → gmap nat (nat * kind)) : M unit :=
  modify (λ σ, mkWorld (heap σ) (TIMERS σ) (UUID_MAP σ)
    (PROMISE_RESOLVE_FUNCTION_MAP σ) (f (armed σ)) (next_uuid σ)
    (next_promise σ) (log σ)).

Definition emit (e : event) : M unit :=
  modify (λ σ, mkWorld (heap σ) (TIMERS σ) (UUID_MAP σ)
    (PROMISE_RESOLVE_FUNCTION_MAP σ) (armed σ) (next_uuid σ)
    (next_promise σ) (e :: log σ)).

(** ** The host runtime *)

(** [setTimeout] / [setInterval]: arm a native timer and return its handle,
    which is never null. *)
Definition fresh_uuid : M nat :=
  λ σ, (Ok (next_uuid σ),
        mkWorld (heap σ) (TIMERS σ) (UUID_MAP σ)
          (PROMISE_RESOLVE_FUNCTION_MAP σ) (armed σ) (S (next_uuid σ))
          (next_promise σ) (log σ)).

Definition setTimeout (this d : nat) : M nat :=
  let* h := fresh_uuid in
  with_armed (insert h (this, Timeout)) ;;
  emit (SetTimeout h this d) ;;
  ret h.

Definition setInterval (this d : nat) : M nat :=
  let* h := fresh_uuid in
  with_armed (insert h (this, Interval)) ;;
  emit (SetInterval h this d) ;;
  ret h.

Definition clearTimeout (h : nat) : M unit :=
  with_armed (delete h) ;; emit (ClearTimeout h).

Definition clearInterval (h : nat) : M unit :=
  with_armed (delete h) ;; emit (ClearInterval h).

(** [new Promise(executor)]: the promise is allocated, then the executor runs
    synchronously with its resolve function. *)
Definition new_Promise (executor : nat → M unit) : M nat :=
  λ σ, let p := next_promise σ in
       (executor p ;; ret p)
         (mkWorld (heap σ) (TIMERS σ) (UUID_MAP σ)
            (PROMISE_RESOLVE_FUNCTION_MAP σ) (armed σ) (next_uuid σ)
            (S p) (log σ)).

Definition resolve (p : nat) : M unit := emit (Resolve p).

(** ** class Timer *)

Module Timer.

Definition hasTimer (σ : world) (this : nat) : bool :=
  match UUID_MAP σ !! this with Some _ => true | None => false end.

(** [this.callback()]: the call of the function the task was constructed
    with.  [client] is what that function does on this invocation. *)
Definition callback (client : M unit) (this : nat) : M unit :=
  emit (Callback this) ;;
  client.

Definition callPromiseResolveFunction (this : nat) : M unit :=
  let* resolveFunction := gets (λ σ, PROMISE_RESOLVE_FUNCTION_MAP σ !! this) in
  match resolveFunction with
  | Some p =>
      resolve p ;;
      with_PROMISE_RESOLVE_FUNCTION_MAP (delete this)
  | None => ret tt
  end.

Definition startInterval (this : nat) : M unit :=
  let* d := gets (λ σ, get_duration (heap σ) this) in
  let* h := setInterval this d in
  with_UUID_MAP (insert this h).

Definition startTimeout (this : nat) : M unit :=
  let* d := gets (λ σ, get_duration (heap σ) this) in
  let* h := setTimeout this d in
  with_UUID_MAP (insert this h).

Definition stopInterval (this : nat) : M unit :=
  let* uuid := gets (λ σ, UUID_MAP σ !! this) in
  match uuid with
  | None =>
      throw (TypeError "Timer could not stop an interval: It wasn't started!"%string)
  | Some h =>
      clearInterval h ;;
      with_UUID_MAP (delete this) ;;
      callPromiseResolveFunction this
  end.

Definition stopTimeout (this : nat) : M unit :=
  let* uuid := gets (λ σ, UUID_MAP σ !! this) in
  match uuid with
  | None =>
      throw (TypeError "Timer could not stop a timeout: It wasn't started!"%string)
  | Some h =>
      clearTimeout h ;;
      with_UUID_MAP (delete this)
  end.

Definition stop (this : nat) : M unit :=
  let* has := gets (λ σ, hasTimer σ this) in
  if negb has then
    throw (TypeError
      "Timer could not stop a timer: It wasn't started or paused!"%string)
  else
    set_isRunning this false ;;
    let* r := gets (λ σ, get_repeat (heap σ) this) in
    if r then stopInterval this else stopTimeout this.

Definition run (this : nat) : M nat :=
  let* has := gets (λ σ, hasTimer σ this) in
  when has (stop this) ;;
  set_isRunning this true ;;
  new_Promise (λ resolve_new,
    let* r := gets (λ σ, get_repeat (heap σ) this) in
    (if r then startInterval this else startTimeout this) ;;
    let* cached := gets (λ σ, PROMISE_RESOLVE_FUNCTION_MAP σ !! this) in
    match cached with
    | None => with_PROMISE_RESOLVE_FUNCTION_MAP (insert this resolve_new)
    | Some _ => resolve resolve_new
    end).

(** Static members. *)

Definition stopTimer (timer : nat) : M unit :=
  let* running := gets (λ σ, get_isRunning (heap σ) timer) in
  when running (stop timer).

Definition runTimer (timer : nat) : M unit :=
  let* running := gets (λ σ, get_isRunning (heap σ) timer) in
  when (negb running) (run timer ;; ret tt).

Definition Set_add (x : nat) (s : list nat) : list nat :=
  if bool_decide (x ∈ s) then s else s ++ [x].

Definition Set_delete (x : nat) (s : list nat) : list nat :=
  filter (λ y, y ≠ x) s.

Definition addTimer (timer : nat) : M unit :=
  with_TIMERS (Set_add timer).

Definition clearTimer (timer : nat) : M unit :=
  stopTimer timer ;;
  with_TIMERS (Set_delete timer) ;;
  with_UUID_MAP (delete timer).

(** [Set.prototype.forEach]: the entries are visited in insertion order, and
    an entry deleted before its turn is skipped. *)
Fixpoint forEach (f : nat → M unit) (entries : list nat) : M unit :=
  match entries with
  | [] => ret tt
  | t :: rest =>
      let* present := gets (λ σ, bool_decide (t ∈ TIMERS σ)) in
      when present (f t) ;;
      forEach f rest
  end.

Definition TIMERS_forEach (f : nat → M unit) : M unit :=
  let* entries := gets TIMERS in
  forEach f entries.

Definition stopTimers : M unit := TIMERS_forEach stopTimer.
Definition runTimers : M unit := TIMERS_forEach runTimer.
Definition clearTimers : M unit := TIMERS_forEach clearTimer.

Definition clear (this : nat) : M unit := clearTimer this.

(** [new Timer(callback, duration, repeat)]. *)
Definition new (d : nat) (r : bool) : M nat :=
  λ σ, let this := length (heap σ) in
       (addTimer this ;; ret this)
         (mkWorld (heap σ ++ [mkTimer d r false]) (TIMERS σ) (UUID_MAP σ)
            (PROMISE_RESOLVE_FUNCTION_MAP σ) (armed σ) (next_uuid σ)
            (next_promise σ) (log σ)).

(** The closures handed to the host by [startTimeout] and [startInterval].
    When the callback throws, the rest of the closure is not run. *)
Definition timeout_body (client : M unit) (this : nat) : M unit :=
  callback client this ;;
  callPromiseResolveFunction this.

Definition interval_body (client : M unit) (this : nat) : M unit :=
  callback client this.

End Timer.

Import Timer.

(** The host fires an armed native timer: a timeout is spent by firing, an
    interval stays armed.  The closure of the timer runs, and in it the
    callback, which does [client]. *)
Definition fire_with (client : M unit) (h : nat) : M unit :=
  let* entry := gets (λ σ, armed σ !! h) in
  match entry with
  | Some (this, Timeout) =>
      with_armed (delete h) ;;
      Timer.timeout_body client this
  | Some (this, Interval) => Timer.interval_body client this
  | None => ret tt
  end.

(** The firing whose callback returns without calling the API. *)
Definition fire (h : nat) : M unit := fire_with (ret tt) h.

(** ** Programs against the API *)

(** What client code and the host can do, one call at a time. *)
Inductive op :=
  | New (d : nat) (r : bool)
  | Run (t : nat)
  | Stop (t : nat)
  | Clear (t : nat)
  | RunTimers
  | StopTimers
  | ClearTimers
  | Fire (h : nat).

Definition call (o : op) : M unit :=
  match o with
  | New d r => Timer.new d r ;; ret tt
  | Run t => Timer.run t ;; ret tt
  | Stop t => Timer.stop t
  | Clear t => Timer.clear t
  | RunTimers => Timer.runTimers
  | StopTimers => Timer.stopTimers
  | ClearTimers => Timer.clearTimers
  | Fire h => fire h
  end.

(** A call is possible when its receiver has been constructed; the host only
    fires timers that are armed. *)
Definition possible (σ : world) (o : op) : Prop :=
  match o with
  | Run t | Stop t | Clear t => t < length (heap σ)
  | Fire h => is_Some (armed σ !! h)
  | _ => True
  end.

(** The state a call leaves, whether it returned or threw. *)
Definition after (o : op) (σ : world) : world := (call o σ).2.

Definition exec (os : list op) (σ : world) : world :=
  foldl (λ σ o, after o σ) σ os.

Inductive reachable : world → Prop :=
  | reachable_init : reachable init
  | reachable_call σ o :
      reachable σ → possible σ o → reachable (after o σ).

(** [runs os σ]: the calls [os] can be made one after the other from [σ]. *)
Fixpoint runs (os : list op) (σ : world) : Prop :=
  match os with
  | [] => True
  | o :: os' => possible σ o ∧ runs os' (after o σ)
  end.

(** ** Callbacks that call the API

    [this.callback()] hands control to client code, which may call the API
    before it returns, or throw.  The host is single-threaded: while a
    callback runs no native timer fires. *)

Inductive outcome := Returns | Throws.

(** The client code of one callback invocation: the API calls [os], one after
    the other, each caught when it throws, and then a return or a throw.
    ([Fire] is no API call: [os] is taken without it.) *)
Definition script (os : list op) (e : outcome) : M unit :=
  modify (exec os) ;;
  match e with
  | Returns => ret tt
  | Throws => throw ClientError
  end.

(** The same runs one step at a time: the timeout closure
    [() => { this.callback(); this.callPromiseResolveFunction() }] is entered
    when its timer fires, and is left when the callback returns or throws;
    the calls the callback makes lie in between. *)

(** The host fires [h] and the closure invokes the callback. *)
Definition enter (h : nat) : M unit :=
  let* entry := gets (λ σ, armed σ !! h) in
  match entry with
  | Some (this, Timeout) =>
      with_armed (delete h) ;;
      emit (Callback this)
  | Some (this, Interval) => emit (Callback this)
  | None => ret tt
  end.

(** The callback of [this] has returned: the rest of the closure runs. *)
Definition leave (this : nat) (k : kind) : M unit :=
  match k with
  | Timeout => Timer.callPromiseResolveFunction this
  | Interval => ret tt
  end.

Inductive act :=
  | Do (o : op)       (* a call of the API; a firing whose callback returns
                         at once *)
  | Enter (h : nat)   (* the timer [h] fires and its callback starts *)
  | Return            (* the running callback returns *)
  | Raise.            (* the running callback throws *)

(** The state, and the owner and kind of the timer whose callback is running,
    if one is. *)
Definition config : Type := option (nat * kind) * world.

Definition possible_act (c : config) (a : act) : Prop :=
  match a with
  | Do o => possible c.2 o ∧ ∀ h, o = Fire h → c.1 = None
  | Enter h => c.1 = None ∧ is_Some (armed c.2 !! h)
  | Return | Raise => is_Some c.1
  end.

Definition after_act (a : act) (c : config) : config :=
  match a with
  | Do o => (c.1, after o c.2)
  | Enter h => (armed c.2 !! h, (enter h c.2).2)
  | Return =>
      match c.1 with
      | Some (this, k) => (None, (leave this k c.2).2)
      | None => c
      end
  | Raise => (None, c.2)
  end.

Definition exec_acts (acts : list act) (c : config) : config :=
  foldl (λ c a, after_act a c) c acts.

Fixpoint runs_acts (acts : list act) (c : config) : Prop :=
  match acts with
  | [] => True
  | a :: acts' => possible_act c a ∧ runs_acts acts' (after_act a c)
  end.

Inductive reaches : config → Prop :=
  | reaches_init : reaches (None, init)
  | reaches_act c a : reaches c → possible_act c a → reaches (after_act a c).

(** The steps of the firing [fire_with (script os e) h]. *)
Definition ending (e : outcome) : act :=
  match e with Returns => Return | Throws => Raise end.

Definition firing (h : nat) (os : list op) (e : outcome) : list act :=
  Enter h :: map Do os ++ [ending e].

(** ** Observations *)

Definition resolved (σ : world) (p : nat) : Prop := Resolve p ∈ log σ.

Definition calls (σ : world) (t : nat) : nat :=
  length (filter (λ e, e = Callback t) (log σ)).

Definition pending (σ : world) (t : nat) : option nat :=
  PROMISE_RESOLVE_FUNCTION_MAP σ !! t.

Definition handle (σ : world) (t : nat) : option nat := UUID_MAP σ !! t.

(** The part of the state that belongs to one task: its running flag, its
    stored native handle, its cached resolve function, and the native timer
    behind the stored handle when that timer is still armed. *)
Definition view (σ : world) (t : nat)
    : bool * option nat * option nat * option (nat * kind) :=
  (get_isRunning (heap σ) t, UUID_MAP σ !! t,
   PROMISE_RESOLVE_FUNCTION_MAP σ !! t,
   UUID_MAP σ !! t ≫= λ h, armed σ !! h).

(** ** Closed forms of the operations

    The states the methods leave, written as records; the lemmas [stop_Some],
    [run_eq], [clearTimer_inv], [new_eq] and [fire_eq] below show that the
    embedded methods compute them. *)

Definition kind_of (r : bool) : kind := if r then Interval else Timeout.

Definition stop_events (σ : world) (t h : nat) : list event :=
  if get_repeat (heap σ) t then
    match PROMISE_RESOLVE_FUNCTION_MAP σ !! t with
    | Some p => [Resolve p; ClearInterval h]
    | None => [ClearInterval h]
    end
  else [ClearTimeout h].

Definition stopped (σ : world) (t h : nat) : world :=
  mkWorld (alter (set_running false) t (heap σ)) (TIMERS σ)
    (delete t (UUID_MAP σ))
    (if get_repeat (heap σ) t then delete t (PROMISE_RESOLVE_FUNCTION_MAP σ)
     else PROMISE_RESOLVE_FUNCTION_MAP σ)
    (delete h (armed σ)) (next_uuid σ) (next_promise σ)
    (stop_events σ t h ++ log σ).

(** [stop] where a handle is stored, nothing otherwise: what the guarded
    calls in [run], [stopTimer] and [clearTimer] amount to. *)
Definition disarmed (σ : world) (t : nat) : world :=
  match UUID_MAP σ !! t with
  | Some h => stopped σ t h
  | None => σ
  end.

Definition start_event (σ : world) (t : nat) : event :=
  if get_repeat (heap σ) t
  then SetInterval (next_uuid σ) t (get_duration (heap σ) t)
  else SetTimeout (next_uuid σ) t (get_duration (heap σ) t).

Definition rearmed (σ : world) (t : nat) : world :=
  mkWorld (alter (set_running true) t (heap σ)) (TIMERS σ)
    (<[t := next_uuid σ]> (UUID_MAP σ))
    (match PROMISE_RESOLVE_FUNCTION_MAP σ !! t with
     | None => <[t := next_promise σ]> (PROMISE_RESOLVE_FUNCTION_MAP σ)
     | Some _ => PROMISE_RESOLVE_FUNCTION_MAP σ
     end)
    (<[next_uuid σ := (t, kind_of (get_repeat (heap σ) t))]> (armed σ))
    (S (next_uuid σ)) (S (next_promise σ))
    (match PROMISE_RESOLVE_FUNCTION_MAP σ !! t with
     | None => start_event σ t :: log σ
     | Some _ => Resolve (next_promise σ) :: start_event σ t :: log σ
     end).

Definition started (σ : world) (t : nat) : world := rearmed (disarmed σ t) t.

Definition unregistered (σ : world) (t : nat) : world :=
  mkWorld (heap σ) (Set_delete t (TIMERS σ)) (delete t (UUID_MAP σ))
    (PROMISE_RESOLVE_FUNCTION_MAP σ) (armed σ) (next_uuid σ)
    (next_promise σ) (log σ).

Definition cleared (σ : world) (t : nat) : world :=
  unregistered (disarmed σ t) t.

Definition constructed (σ : world) (d : nat) (r : bool) : world :=
  mkWorld (heap σ ++ [mkTimer d r false])
    (Set_add (length (heap σ)) (TIMERS σ)) (UUID_MAP σ)
    (PROMISE_RESOLVE_FUNCTION_MAP σ) (armed σ) (next_uuid σ)
    (next_promise σ) (log σ).

Definition fire_events (σ : world) (t : nat) (k : kind) : list event :=
  match k, PROMISE_RESOLVE_FUNCTION_MAP σ !! t with
  | Timeout, Some p => [Resolve p; Callback t]
  | _, _ => [Callback t]
  end.

Definition fired (σ : world) (h : nat) : world :=
  match armed σ !! h with
  | Some (t, Timeout) =>
      mkWorld (heap σ) (TIMERS σ) (UUID_MAP σ)
        (delete t (PROMISE_RESOLVE_FUNCTION_MAP σ)) (delete h (armed σ))
        (next_uuid σ) (next_promise σ) (fire_events σ t Timeout ++ log σ)
  | Some (t, Interval) =>
      mkWorld (heap σ) (TIMERS σ) (UUID_MAP σ)
        (PROMISE_RESOLVE_FUNCTION_MAP σ) (armed σ)
        (next_uuid σ) (next_promise σ) (fire_events σ t Interval ++ log σ)
  | None => σ
  end.

(** The state in which the callback of the timer [h] starts. *)
Definition entered (σ : world) (h : nat) : world :=
  match armed σ !! h with
  | Some (t, Timeout) =>
      mkWorld (heap σ) (TIMERS σ) (UUID_MAP σ)
        (PROMISE_RESOLVE_FUNCTION_MAP σ) (delete h (armed σ))
        (next_uuid σ) (next_promise σ) (Callback t :: log σ)
  | Some (t, Interval) =>
      mkWorld (heap σ) (TIMERS σ) (UUID_MAP σ)
        (PROMISE_RESOLVE_FUNCTION_MAP σ) (armed σ)
        (next_uuid σ) (next_promise σ) (Callback t :: log σ)
  | None => σ
  end.

(** The state [callPromiseResolveFunction] leaves. *)
Definition settled (σ : world) (t : nat) : world :=
  match PROMISE_RESOLVE_FUNCTION_MAP σ !! t with
  | Some p =>
      mkWorld (heap σ) (TIMERS σ) (UUID_MAP σ)
        (delete t (PROMISE_RESOLVE_FUNCTION_MAP σ)) (armed σ)
        (next_uuid σ) (next_promise σ) (Resolve p :: log σ)
  | None => σ
  end.

(** ** Invariant of the reachable states *)

Record inv (σ : world) : Prop := {
  running_iff : ∀ t,
    get_isRunning (heap σ) t = true ↔ is_Some (UUID_MAP σ !! t);
  armed_owner : ∀ h t k,
    armed σ !! h = Some (t, k) →
    UUID_MAP σ !! t = Some h ∧ k = kind_of (get_repeat (heap σ) t);
  uuid_bound : ∀ t h, UUID_MAP σ !! t = Some h → h < next_uuid σ;
  uuid_inj : ∀ t t' h,
    UUID_MAP σ !! t = Some h → UUID_MAP σ !! t' = Some h → t = t';
  pending_bound : ∀ t p,
    PROMISE_RESOLVE_FUNCTION_MAP σ !! t = Some p → p < next_promise σ;
  resolved_bound : ∀ p, Resolve p ∈ log σ → p < next_promise σ;
  pending_unresolved : ∀ t p,
    PROMISE_RESOLVE_FUNCTION_MAP σ !! t = Some p → Resolve p ∉ log σ;
  pending_inj : ∀ t t' p,
    PROMISE_RESOLVE_FUNCTION_MAP σ !! t = Some p →
    PROMISE_RESOLVE_FUNCTION_MAP σ !! t' = Some p → t = t';
  timers_bound : ∀ t, t ∈ TIMERS σ → t < length (heap σ)
}.

Arguments get_isRunning : simpl never.
Arguments get_repeat : simpl never.
Arguments get_duration : simpl never.
Arguments fire_events : simpl never.
Arguments stop_events : simpl never.
Arguments start_event : simpl never.

(** What [stop] does to the view of its receiver. *)
Definition stop_view (r : bool)
    (v : bool * option nat * option nat * option (nat * kind))
    : bool * option nat * option nat * option (nat * kind) :=
  match v with
  | (_, Some _, cached, _) => (false, None, if r then None else cached, None)
  | (_, None, _, _) => v
  end.

(** ** Statements about the API *)

Definition raises {A} (m : M A) (σ : world) : Prop := ∃ e, (m σ).1 = Throw e.

Definition stop_message : string :=
  "Timer could not stop a timer: It wasn't started or paused!".

(** C2 as stated. *)
Definition run_keeps_pending (σ : world) (t : nat) : Prop :=
  ∀ h p, handle σ t = Some h → pending σ t = Some p → ¬ resolved σ p →
    pending (run t σ).2 t = Some p ∧ ¬ resolved (run t σ).2 p.


(** [quiet σ σ']: from [σ] to [σ'] the log has only grown, and by no callback
    invocation. *)
Definition quiet (σ σ' : world) : Prop :=
  ∃ evs, log σ' = evs ++ log σ ∧ ∀ t, Callback t ∉ evs.

(** While the handle [p] of the one-shot task [t] is outstanding: [p] is the
    cached resolve function and the callback count has not moved. *)
Definition awaiting (t p c : nat) (σ : world) : Prop :=
  inv σ ∧ t < length (heap σ) ∧ get_repeat (heap σ) t = false ∧
  pending σ t = Some p ∧ calls σ t = c.

(** A handle resolves at [σ'] when [σ'] is the first state in which it is
    resolved, counting from the state [σ1] that its [run] call left. *)
Definition resolution_point (σ1 σ' : world) (p : nat) : Prop :=
  resolved σ' p ∧
  (σ' = σ1 ∨
   ∃ os o, runs (os ++ [o]) σ1 ∧ ¬ resolved (exec os σ1) p ∧
           σ' = exec (os ++ [o]) σ1).

(** C7 as stated, second half. *)
Definition awaits_one_call (σ : world) (t : nat) : Prop :=
  ∀ σ', resolution_point (run t σ).2 σ' (next_promise σ) →
        calls σ' t = S (calls σ t).

(** C10 as stated, for a [clear] called at [c]: the completion cached for the
    one-shot task [t] stays unresolved through whatever follows.  The runs
    in which [run] is called on the cleared task are left aside: the task
    is dead by then. *)
Definition clear_leaves_unresolved (c : config) (t : nat) : Prop :=
  ∀ p acts, get_repeat (heap c.2) t = false →
    pending c.2 t = Some p → ¬ resolved c.2 p →
    runs_acts (Do (Clear t) :: acts) c → Do (Run t) ∉ acts →
    ¬ resolved (exec_acts (Do (Clear t) :: acts) c).2 p.

(** A cleared one-shot task whose completion [p] is still cached. *)
Definition shelved (t p : nat) (σ : world) : Prop :=
  inv σ ∧ t < length (heap σ) ∧ (t ∉ TIMERS σ) ∧
  handle σ t = None ∧ pending σ t = Some p.

(** The callback that is running, if one is, is not the callback of [t]. *)
Definition outside (t : nat) (c : config) : Prop := ∀ k, c.1 ≠ Some (t, k).

(** ** Further notions *)

(** The task [t] stores the handle of an armed native timer of its kind. *)
Definition armed_for (t : nat) (σ : world) : Prop :=
  ∃ h, handle σ t = Some h ∧
       armed σ !! h = Some (t, kind_of (get_repeat (heap σ) t)).

Definition interval_message : string :=
  "Timer could not stop an interval: It wasn't started!".

Definition timeout_message : string :=
  "Timer could not stop a timeout: It wasn't started!".

(** How many times the resolve function of promise [p] has been called. *)
Definition resolutions (σ : world) (p : nat) : nat :=
  length (filter (λ e, e = Resolve p) (log σ)).

Definition once (l : list event) : Prop :=
  ∀ p, length (filter (λ e, e = Resolve p) l) ≤ 1.

(** The task [t] stores no handle and its callback count stands at [c]. *)
Definition silent (t c : nat) (σ : world) : Prop :=
  inv σ ∧ handle σ t = None ∧ calls σ t = c.

(** * Lemmas *)

Section heap_facts.
Context (objs : list TimerObj) (b : bool) (t t' : nat).

Lemma get_repeat_alter :
  get_repeat (alter (set_running b) t objs) t' = get_repeat objs t'.
Proof.
  unfold get_repeat. destruct (decide (t = t')) as [->|Hne].
  - rewrite list_lookup_alter_eq. by destruct (objs !! t').
  - by rewrite list_lookup_alter_ne.
Qed.

Lemma get_duration_alter :
  get_duration (alter (set_running b) t objs) t' = get_duration objs t'.
Proof.
  unfold get_duration. destruct (decide (t = t')) as [->|Hne].
  - rewrite list_lookup_alter_eq. by destruct (objs !! t').
  - by rewrite list_lookup_alter_ne.
Qed.

Lemma get_isRunning_alter_ne :
  t ≠ t' → get_isRunning (alter (set_running b) t objs) t' = get_isRunning objs t'.
Proof. intros Hne. unfold get_isRunning. by rewrite list_lookup_alter_ne. Qed.

Lemma get_isRunning_alter_eq :
  t < length objs → get_isRunning (alter (set_running b) t objs) t = b.
Proof.
  intros Hlt. unfold get_isRunning. rewrite list_lookup_alter_eq.
  destruct (lookup_lt_is_Some_2 objs t Hlt) as [o ->]. done.
Qed.

Lemma get_isRunning_alter_false :
  get_isRunning (alter (set_running false) t objs) t = false.
Proof.
  unfold get_isRunning. rewrite list_lookup_alter_eq. by destruct (objs !! t).
Qed.

Lemma get_isRunning_lt : get_isRunning objs t = true → t < length objs.
Proof.
  unfold get_isRunning. destruct (objs !! t) eqn:E; [|done].
  intros _. eapply lookup_lt_Some; eauto.
Qed.
End heap_facts.

Lemma stop_None σ t :
  UUID_MAP σ !! t = None →
  stop t σ = (Throw (TypeError "Timer could not stop a timer: It wasn't started or paused!"), σ).
Proof.
  intros H. unfold stop, bind, gets, hasTimer. by rewrite H.
Qed.

Lemma stop_Some σ t h :
  UUID_MAP σ !! t = Some h → stop t σ = (Ok tt, stopped σ t h).
Proof.
  intros H. unfold stop, stopped, stop_events, bind, gets, hasTimer. rewrite H. simpl.
  rewrite get_repeat_alter.
  destruct (get_repeat (heap σ) t).
  - unfold stopInterval, callPromiseResolveFunction, bind, gets. simpl. rewrite H. simpl.
    destruct (PROMISE_RESOLVE_FUNCTION_MAP σ !! t) eqn:E; simpl; [done|].
    rewrite (delete_id (PROMISE_RESOLVE_FUNCTION_MAP σ) t) by done. reflexivity.
  - unfold stopTimeout, bind, gets. simpl. by rewrite H.
Qed.

Lemma run_eq σ t : run t σ = (Ok (next_promise σ), started σ t).
Proof.
  unfold run, started, rearmed, disarmed, bind, gets, hasTimer, when.
  destruct (UUID_MAP σ !! t) as [h|] eqn:E.
  - rewrite (stop_Some _ _ _ E). simpl.
    unfold new_Promise, bind, gets; simpl. rewrite !get_repeat_alter.
    unfold start_event, kind_of; simpl. rewrite !get_repeat_alter, !get_duration_alter.
    destruct (get_repeat (heap σ) t) eqn:Hr; simpl.
    + unfold startInterval, bind, gets; simpl.
      rewrite !get_duration_alter. rewrite lookup_delete_eq. done.
    + unfold startTimeout, bind, gets; simpl.
      rewrite !get_duration_alter.
      by destruct (PROMISE_RESOLVE_FUNCTION_MAP σ !! t).
  - simpl. unfold new_Promise, bind, gets; simpl. rewrite !get_repeat_alter.
    unfold start_event, kind_of; simpl. 
    destruct (get_repeat (heap σ) t) eqn:Hr; simpl.
    + unfold startInterval, bind, gets; simpl.
      rewrite !get_duration_alter. 
      by destruct (PROMISE_RESOLVE_FUNCTION_MAP σ !! t).
    + unfold startTimeout, bind, gets; simpl.
      rewrite !get_duration_alter.
      by destruct (PROMISE_RESOLVE_FUNCTION_MAP σ !! t).
Qed.

Lemma in_stop_events σ t h e :
  e ∈ stop_events σ t h →
  e = ClearTimeout h ∨ e = ClearInterval h ∨
  (e = Resolve (default 0 (PROMISE_RESOLVE_FUNCTION_MAP σ !! t)) ∧ 
   get_repeat (heap σ) t = true ∧ is_Some (PROMISE_RESOLVE_FUNCTION_MAP σ !! t)).
Proof.
  unfold stop_events. destruct (get_repeat (heap σ) t).
  - destruct (PROMISE_RESOLVE_FUNCTION_MAP σ !! t); set_solver.
  - set_solver.
Qed.

Lemma inv_stopped σ t h :
  inv σ → UUID_MAP σ !! t = Some h → inv (stopped σ t h).
Proof.
  intros [] Ht. split; simpl.
  - intros t'. destruct (decide (t = t')) as [<-|Hne].
    + rewrite get_isRunning_alter_false, lookup_delete_eq.
      split; [done | by intros []].
    + by rewrite get_isRunning_alter_ne, lookup_delete_ne.
  - intros h' t' k. rewrite get_repeat_alter, lookup_delete_Some.
    intros [Hh Ha]. destruct (armed_owner0 _ _ _ Ha) as [Hu ->]. split; [|done].
    rewrite lookup_delete_ne; [done|]. intros <-. congruence.
  - intros t' h'. rewrite lookup_delete_Some. naive_solver.
  - intros t1 t2 h'. rewrite !lookup_delete_Some. naive_solver.
  - intros t' p. destruct (get_repeat (heap σ) t);
      [rewrite lookup_delete_Some|]; naive_solver.
  - intros p. rewrite elem_of_app. intros [He|He]; [|eauto].
    apply in_stop_events in He as [?|[?|(Hp & _ & [q Hq])]]; try done.
    rewrite Hq in Hp. simpl in Hp. simplify_eq. eauto.
  - intros t' p Hp. rewrite elem_of_app. intros [He|He].
    + apply in_stop_events in He as [?|[?|(He & Hr & [q Hq])]]; try done.
      rewrite Hq in He. simpl in He. simplify_eq.
      rewrite Hr in Hp. apply lookup_delete_Some in Hp as [Hne Hp].
      apply Hne. eauto.
    + destruct (get_repeat (heap σ) t);
        [apply lookup_delete_Some in Hp as [_ Hp]|]; naive_solver.
  - intros t1 t2 p. destruct (get_repeat (heap σ) t);
      [rewrite !lookup_delete_Some|]; naive_solver.
  - intros t'. rewrite length_alter. eauto.
Qed.

Lemma inv_disarmed σ t : inv σ → inv (disarmed σ t).
Proof.
  intros Hinv. unfold disarmed.
  destruct (UUID_MAP σ !! t) eqn:E; [by apply inv_stopped | done].
Qed.

Lemma disarmed_no_handle σ t : UUID_MAP (disarmed σ t) !! t = None.
Proof.
  unfold disarmed. destruct (UUID_MAP σ !! t) eqn:E; [|done].
  simpl. apply lookup_delete_eq.
Qed.

Lemma disarmed_length σ t : length (heap (disarmed σ t)) = length (heap σ).
Proof.
  unfold disarmed. destruct (UUID_MAP σ !! t); [|done].
  simpl. apply length_alter.
Qed.

Lemma inv_rearmed σ t :
  inv σ → UUID_MAP σ !! t = None → t < length (heap σ) → inv (rearmed σ t).
Proof.
  intros [Hrun Harm Hub Hui Hpb Hrb Hpu Hpi Htb] Ht Hlt. split; simpl.
  - intros t'. destruct (decide (t = t')) as [<-|Hne].
    + rewrite get_isRunning_alter_eq, lookup_insert_eq by done. split; eauto.
    + by rewrite get_isRunning_alter_ne, lookup_insert_ne.
  - intros h' t' k. rewrite get_repeat_alter, lookup_insert_Some.
    intros [[<- [= <- <-]]|[Hh Ha]].
    + by rewrite lookup_insert_eq.
    + destruct (Harm _ _ _ Ha) as [Hu ->]. split; [|done].
      rewrite lookup_insert_ne; [done|]. congruence.
  - intros t' h'. rewrite lookup_insert_Some. intros [[_ <-]|[_ Hu]]; [lia|].
    apply Hub in Hu. lia.
  - intros t1 t2 h'. rewrite !lookup_insert_Some.
    intros [[<- <-]|[? H1]] [[<- ?]|[? H2]]; try done; eauto.
    + apply Hub in H2. lia.
    + apply Hub in H1. lia.
  - intros t' p. destruct (PROMISE_RESOLVE_FUNCTION_MAP σ !! t) eqn:E.
    + intros Hp. apply Hpb in Hp. lia.
    + rewrite lookup_insert_Some. intros [[_ <-]|[_ Hp]]; [lia|].
      apply Hpb in Hp. lia.
  - intros p Hp. assert (p = next_promise σ ∨ Resolve p ∈ log σ) as [->|Hin].
    { unfold start_event in Hp.
      destruct (PROMISE_RESOLVE_FUNCTION_MAP σ !! t), (get_repeat (heap σ) t);
        set_solver. }
    + lia.
    + apply Hrb in Hin. lia.
  - intros t' p Hp Hin.
    assert (p < next_promise σ ∧ PROMISE_RESOLVE_FUNCTION_MAP σ !! t' = Some p
            ∨ p = next_promise σ ∧ PROMISE_RESOLVE_FUNCTION_MAP σ !! t = None)
      as Hcase.
    { destruct (PROMISE_RESOLVE_FUNCTION_MAP σ !! t) eqn:E; [by eauto|].
      apply lookup_insert_Some in Hp as [[_ <-]|[_ Hp]]; eauto. }
    unfold start_event in Hin. destruct Hcase as [[Hlt' Hp']|[-> E]].
    + apply (Hpu _ _ Hp').
      destruct (PROMISE_RESOLVE_FUNCTION_MAP σ !! t), (get_repeat (heap σ) t);
        set_solver by lia.
    + rewrite E in Hin.
      assert (Resolve (next_promise σ) ∈ log σ) as Hin'
        by (destruct (get_repeat (heap σ) t); set_solver).
      apply Hrb in Hin'. lia.
  - intros t1 t2 p. destruct (PROMISE_RESOLVE_FUNCTION_MAP σ !! t) eqn:E; [by eauto|].
    rewrite !lookup_insert_Some.
    intros [[<- <-]|[? H1]] [[<- ?]|[? H2]]; try done; eauto.
    + apply Hpb in H2. lia.
    + apply Hpb in H1. lia.
  - intros t'. rewrite length_alter. eauto.
Qed.

Lemma inv_started σ t : inv σ → t < length (heap σ) → inv (started σ t).
Proof.
  intros Hinv Hlt. apply inv_rearmed.
  - by apply inv_disarmed.
  - apply disarmed_no_handle.
  - by rewrite disarmed_length.
Qed.

Lemma stopTimer_eq σ t :
  stopTimer t σ = if get_isRunning (heap σ) t then stop t σ else (Ok tt, σ).
Proof.
  unfold stopTimer, bind, gets, when. by destruct (get_isRunning (heap σ) t).
Qed.

Lemma runTimer_eq σ t :
  runTimer t σ =
  (Ok tt, if get_isRunning (heap σ) t then σ else started σ t).
Proof.
  unfold runTimer, bind, gets, when.
  destruct (get_isRunning (heap σ) t); simpl; [done|]. by rewrite run_eq.
Qed.

Lemma clearTimer_eq σ t :
  clearTimer t σ =
  match stopTimer t σ with
  | (Ok _, σ') => (Ok tt, unregistered σ' t)
  | (Throw e, σ') => (Throw e, σ')
  end.
Proof.
  unfold clearTimer, bind. destruct (stopTimer t σ) as [[[]|e] σ']; done.
Qed.

Lemma new_eq σ d r : new d r σ = (Ok (length (heap σ)), constructed σ d r).
Proof. done. Qed.

Lemma fire_eq σ h : fire h σ = (Ok tt, fired σ h).
Proof.
  unfold fire, fire_with, fired, fire_events, bind, gets.
  destruct (armed σ !! h) as [[t []]|]; simpl; try done.
  unfold timeout_body, callPromiseResolveFunction, bind, gets; simpl.
  destruct (PROMISE_RESOLVE_FUNCTION_MAP σ !! t) eqn:E; simpl; [done|].
  rewrite (delete_id (PROMISE_RESOLVE_FUNCTION_MAP σ) t) by done. reflexivity.
Qed.

(** Under the invariant the running check of [stopTimer] is the handle check
    of [stop]. *)
Lemma stopTimer_inv σ t : inv σ → stopTimer t σ = (Ok tt, disarmed σ t).
Proof.
  intros Hinv. rewrite stopTimer_eq. unfold disarmed.
  destruct (get_isRunning (heap σ) t) eqn:Hr.
  - apply (running_iff _ Hinv) in Hr as [h Hh]. rewrite Hh. by apply stop_Some.
  - destruct (UUID_MAP σ !! t) eqn:Hh; [|done].
    assert (get_isRunning (heap σ) t = true) by (apply (running_iff _ Hinv); eauto).
    congruence.
Qed.

Lemma clearTimer_inv σ t :
  inv σ → clearTimer t σ = (Ok tt, cleared σ t).
Proof. intros Hinv. by rewrite clearTimer_eq, stopTimer_inv. Qed.

Lemma elem_of_Set_delete x y s : y ∈ Set_delete x s ↔ y ∈ s ∧ y ≠ x.
Proof. unfold Set_delete. rewrite list_elem_of_filter. tauto. Qed.

Lemma elem_of_Set_add x y s : y ∈ Set_add x s ↔ y = x ∨ y ∈ s.
Proof.
  unfold Set_add. case_bool_decide; [|rewrite elem_of_app]; set_solver.
Qed.

Lemma inv_unregistered σ t :
  inv σ → UUID_MAP σ !! t = None → inv (unregistered σ t).
Proof.
  intros [Hrun Harm Hub Hui Hpb Hrb Hpu Hpi Htb] Ht.
  split; simpl; rewrite ?(delete_id (UUID_MAP σ) t) by done; try done.
  intros t'. rewrite elem_of_Set_delete. naive_solver.
Qed.

Lemma inv_cleared σ t : inv σ → inv (cleared σ t).
Proof.
  intros Hinv. apply inv_unregistered;
    [by apply inv_disarmed | apply disarmed_no_handle].
Qed.

Section heap_app.
Context (objs : list TimerObj) (d : nat) (r : bool) (t : nat).

Lemma get_isRunning_app :
  get_isRunning (objs ++ [mkTimer d r false]) t = get_isRunning objs t.
Proof.
  unfold get_isRunning. destruct (decide (t < length objs)) as [Hlt|Hge].
  - by rewrite lookup_app_l.
  - rewrite lookup_app_r by lia. rewrite (lookup_ge_None_2 objs) by lia.
    by destruct (t - length objs) as [|[|n]].
Qed.

Lemma get_repeat_app :
  t < length objs → get_repeat (objs ++ [mkTimer d r false]) t = get_repeat objs t.
Proof. intros Hlt. unfold get_repeat. by rewrite lookup_app_l. Qed.
End heap_app.

Lemma inv_handle_lt σ t h :
  inv σ → UUID_MAP σ !! t = Some h → t < length (heap σ).
Proof.
  intros Hinv Hh. apply get_isRunning_lt, (running_iff _ Hinv). eauto.
Qed.

Lemma inv_constructed σ d r : inv σ → inv (constructed σ d r).
Proof.
  intros Hinv. pose proof (inv_handle_lt σ) as Hlt.
  destruct Hinv as [Hrun Harm Hub Hui Hpb Hrb Hpu Hpi Htb].
  split; simpl; try done.
  - intros t. by rewrite get_isRunning_app.
  - intros h t k Ha. destruct (Harm _ _ _ Ha) as [Hu ->].
    rewrite get_repeat_app; [done|]. eapply Hlt; [by split | done].
  - intros t. rewrite elem_of_Set_add, length_app. simpl.
    intros [->|Hin]; [lia|]. apply Htb in Hin. lia.
Qed.

Lemma in_fire_events σ t k e :
  e ∈ fire_events σ t k →
  e = Callback t ∨
  (k = Timeout ∧ ∃ p, PROMISE_RESOLVE_FUNCTION_MAP σ !! t = Some p ∧ e = Resolve p).
Proof.
  unfold fire_events.
  destruct k, (PROMISE_RESOLVE_FUNCTION_MAP σ !! t); set_solver.
Qed.

Lemma inv_fired σ h : inv σ → inv (fired σ h).
Proof.
  intros Hinv. unfold fired. destruct (armed σ !! h) as [[t k]|] eqn:Ea; [|done].
  destruct Hinv as [Hrun Harm Hub Hui Hpb Hrb Hpu Hpi Htb].
  destruct k; split; simpl; try done.
  - intros h' t' k. rewrite lookup_delete_Some. naive_solver.
  - intros t' p. rewrite lookup_delete_Some. naive_solver.
  - intros p. rewrite elem_of_app. intros [He|He]; [|eauto].
    apply in_fire_events in He as [?|(_ & q & Hq & ?)]; naive_solver.
  - intros t' p. rewrite lookup_delete_Some, elem_of_app.
    intros [Hne Hp] [He|He]; [|naive_solver].
    apply in_fire_events in He as [?|(_ & q & Hq & ?)]; naive_solver.
  - intros t1 t2 p. rewrite !lookup_delete_Some. naive_solver.
  - intros p Hin. apply Hrb. set_solver.
  - intros t' p Hp Hin. apply (Hpu _ _ Hp). set_solver.
Qed.


Lemma forEach_cons f t rest σ :
  forEach f (t :: rest) σ =
  if bool_decide (t ∈ TIMERS σ) then
    match f t σ with
    | (Ok _, σ') => forEach f rest σ'
    | (Throw e, σ') => (Throw e, σ')
    end
  else forEach f rest σ.
Proof.
  simpl. unfold bind at 1, gets. simpl. case_bool_decide; simpl; [|done].
  unfold bind. by destruct (f t σ) as [[[]|e] σ'].
Qed.

Section loops.
Context (I : world → Prop) (f : nat → M unit).
Hypothesis f_preserves : ∀ t σ, I σ → t ∈ TIMERS σ → I (f t σ).2.

Lemma forEach_preserves l σ : I σ → I (forEach f l σ).2.
Proof.
  revert σ. induction l as [|t l IH]; intros σ Hσ; [done|].
  rewrite forEach_cons. case_bool_decide as Hin; [|by apply IH].
  specialize (f_preserves t σ Hσ Hin).
  destruct (f t σ) as [[[]|e] σ']; simpl in *; [by apply IH | done].
Qed.

Hypothesis f_returns : ∀ t σ, I σ → t ∈ TIMERS σ → (f t σ).1 = Ok tt.

Lemma forEach_returns l σ : I σ → (forEach f l σ).1 = Ok tt.
Proof.
  revert σ. induction l as [|t l IH]; intros σ Hσ; [done|].
  rewrite forEach_cons. case_bool_decide as Hin; [|by apply IH].
  specialize (f_preserves t σ Hσ Hin). specialize (f_returns t σ Hσ Hin).
  destruct (f t σ) as [[[]|e] σ']; simpl in *; [by apply IH | done].
Qed.
End loops.

Lemma TIMERS_forEach_eq f σ : TIMERS_forEach f σ = forEach f (TIMERS σ) σ.
Proof. done. Qed.

Lemma runTimer_state σ t :
  inv σ → (runTimer t σ).2 = if get_isRunning (heap σ) t then σ else rearmed σ t.
Proof.
  intros Hinv. rewrite runTimer_eq. simpl.
  destruct (get_isRunning (heap σ) t) eqn:Hr; [done|].
  unfold started, disarmed. destruct (UUID_MAP σ !! t) eqn:Hh; [|done].
  assert (get_isRunning (heap σ) t = true) by (apply (running_iff _ Hinv); eauto).
  congruence.
Qed.

Lemma inv_stopTimer σ t : inv σ → inv (stopTimer t σ).2.
Proof. intros Hinv. rewrite stopTimer_inv by done. by apply inv_disarmed. Qed.

Lemma inv_runTimer σ t : inv σ → t ∈ TIMERS σ → inv (runTimer t σ).2.
Proof.
  intros Hinv Hin. rewrite runTimer_eq. simpl.
  destruct (get_isRunning (heap σ) t); [done|].
  apply inv_started; [done|]. by apply (timers_bound _ Hinv).
Qed.

Lemma inv_clearTimer σ t : inv σ → inv (clearTimer t σ).2.
Proof. intros Hinv. rewrite clearTimer_inv by done. by apply inv_cleared. Qed.

Lemma inv_init : inv init.
Proof.
  split; simpl; try done.
  - intros t. unfold get_isRunning. simpl. split; [done | by intros []].
  - intros p Hp. by apply elem_of_nil in Hp.
  - intros t Ht. by apply elem_of_nil in Ht.
Qed.

Lemma after_New σ d r : after (New d r) σ = constructed σ d r.
Proof. done. Qed.

Lemma after_Run σ t : after (Run t) σ = started σ t.
Proof. unfold after, call, bind. by rewrite run_eq. Qed.

Lemma after_Stop σ t : after (Stop t) σ = disarmed σ t.
Proof.
  unfold after, call, disarmed. destruct (UUID_MAP σ !! t) as [h|] eqn:Hh.
  - by rewrite (stop_Some _ _ _ Hh).
  - by rewrite (stop_None _ _ Hh).
Qed.

Lemma after_Clear σ t : inv σ → after (Clear t) σ = cleared σ t.
Proof. intros Hinv. unfold after, call, clear. by rewrite clearTimer_inv. Qed.

Lemma after_Fire σ h : after (Fire h) σ = fired σ h.
Proof. unfold after, call. by rewrite fire_eq. Qed.

Lemma inv_after σ o : inv σ → possible σ o → inv (after o σ).
Proof.
  intros Hinv Hp. destruct o as [d r|t|t|t| | | |h].
  - rewrite after_New. by apply inv_constructed.
  - rewrite after_Run. by apply inv_started.
  - rewrite after_Stop. by apply inv_disarmed.
  - rewrite after_Clear by done. by apply inv_cleared.
  - apply (forEach_preserves inv); [|done]. intros; by apply inv_runTimer.
  - apply (forEach_preserves inv); [|done]. intros; by apply inv_stopTimer.
  - apply (forEach_preserves inv); [|done]. intros; by apply inv_clearTimer.
  - rewrite after_Fire. by apply inv_fired.
Qed.

Lemma reachable_inv σ : reachable σ → inv σ.
Proof.
  induction 1 as [|σ o _ IH Hp]; [apply inv_init | by apply inv_after].
Qed.

Lemma runs_inv os σ : inv σ → runs os σ → inv (exec os σ).
Proof.
  revert σ. induction os as [|o os IH]; intros σ Hinv Hr; [done|].
  destruct Hr as [Hp Hr]. simpl. apply IH; [by apply inv_after | done].
Qed.

Lemma runs_reachable os σ : reachable σ → runs os σ → reachable (exec os σ).
Proof.
  revert σ. induction os as [|o os IH]; intros σ Hre Hr; [done|].
  destruct Hr as [Hp Hr]. simpl. apply IH; [by constructor | done].
Qed.

Lemma raises_stop σ t : raises (stop t) σ ↔ handle σ t = None.
Proof.
  unfold raises, handle. destruct (UUID_MAP σ !! t) as [h|] eqn:Hh.
  - rewrite (stop_Some _ _ _ Hh). simpl. split; [by intros [? ?] | done].
  - rewrite (stop_None _ _ Hh). simpl. split; [done | eauto].
Qed.

Lemma handle_None_running σ t :
  inv σ → handle σ t = None ↔ get_isRunning (heap σ) t = false.
Proof.
  intros Hinv. unfold handle. pose proof (running_iff _ Hinv t) as Hiff.
  destruct (get_isRunning (heap σ) t), (UUID_MAP σ !! t) eqn:E; split; try done.
  - intros _. destruct Hiff as [Hiff _]. by destruct Hiff.
  - intros _. destruct Hiff as [_ Hiff]. by specialize (Hiff (mk_is_Some _ _ eq_refl)).
Qed.

(** The guard of [stop] is the stored handle (the test [hasTimer] of the
    source): [stop] raises the invalid-state [TypeError] exactly when the task
    stores no native handle.  It raises on a second [stop] in a row, on every
    idle task of a reachable state and on a task that was just constructed;
    it returns normally whenever a native timer of the task is armed.  The
    error is the result of the call itself. *)
Theorem stop_raises_iff :
  (∀ σ t, raises (stop t) σ ↔ handle σ t = None) ∧
  (∀ σ t, raises (stop t) (stop t σ).2) ∧
  (∀ σ t, reachable σ →
     raises (stop t) σ ↔ get_isRunning (heap σ) t = false) ∧
  (∀ σ d r, reachable σ →
     raises (stop (length (heap σ))) (new d r σ).2) ∧
  (∀ σ h t k, reachable σ →
     armed σ !! h = Some (t, k) → (stop t σ).1 = Ok tt).
Proof.
  split_and!.
  - apply raises_stop.
  - intros σ t. apply raises_stop. change (stop t σ).2 with (after (Stop t) σ).
    rewrite after_Stop. apply disarmed_no_handle.
  - intros σ t Hr. rewrite raises_stop. by apply handle_None_running, reachable_inv.
  - intros σ d r Hr. apply raises_stop. rewrite new_eq. simpl.
    apply reachable_inv in Hr. unfold handle. simpl.
    destruct (UUID_MAP σ !! length (heap σ)) eqn:E; [|done].
    apply (inv_handle_lt _ _ _ Hr) in E. lia.
  - intros σ h t k Hr Ha. apply reachable_inv in Hr.
    destruct (armed_owner _ Hr _ _ _ Ha) as [Hh _].
    by rewrite (stop_Some _ _ _ Hh).
Qed.


Lemma stop_raises_iff_witness :
  reachable init ∧ raises (stop 0) (new 100 false init).2.
Proof.
  split; [constructor|].
  destruct stop_raises_iff as (_ & _ & _ & H & _).
  apply (H init 100 false). constructor.
Defined.

(** C4, on the source: once the one-shot timer of a task has fired, no native
    timer is armed, for this task or any other, and yet [stop] on the task
    returns normally instead of raising: the closure of [startTimeout] leaves
    the spent handle in [UUID_MAP], and the handle is what [stop] tests. *)
Theorem stop_after_firing_returns :
  let σ := exec [New 100 false; Run 0; Fire 0] init in
  reachable σ ∧
  (∀ h, armed σ !! h = None) ∧
  (stop 0 σ).1 = Ok tt ∧
  ¬ raises (stop 0) σ.
Proof.
  split_and!.
  - apply (reachable_call _ (Fire 0)); [|vm_compute; by eexists].
    apply (reachable_call _ (Run 0)); [|vm_compute; lia].
    apply (reachable_call _ (New 100 false)); [constructor | exact I].
  - by vm_compute.
  - by vm_compute.
  - intros [e He]. vm_compute in He. discriminate He.
Qed.

(** When the task stores no native handle, [stop] throws before it changes
    anything: the state it leaves is the state it was called in. *)
Theorem stop_error_atomic σ t :
  hasTimer σ t = false →
  stop t σ = (Throw (TypeError stop_message), σ).
Proof.
  unfold hasTimer. intros Hh. apply stop_None.
  by destruct (UUID_MAP σ !! t).
Qed.

Lemma stop_error_atomic_witness :
  let σ := (new 100 false init).2 in
  hasTimer σ 0 = false ∧ stop 0 σ = (Throw (TypeError stop_message), σ).
Proof.
  split; [reflexivity | apply stop_error_atomic; reflexivity].
Defined.

(** C9, on the source: once the one-shot timer of a task has fired, no native
    timer is armed, and [stop] on the task does not raise: it returns, resets
    [isRunning], forgets the spent handle and calls [clearTimeout] on it. *)
Theorem stop_after_firing_mutates :
  let σ := exec [New 100 false; Run 0; Fire 0] init in
  let σ' := (stop 0 σ).2 in
  (∀ h, armed σ !! h = None) ∧
  (stop 0 σ).1 = Ok tt ∧
  get_isRunning (heap σ) 0 = true ∧ get_isRunning (heap σ') 0 = false ∧
  handle σ 0 = Some 0 ∧ handle σ' 0 = None ∧
  log σ' = ClearTimeout 0 :: log σ.
Proof. split_and!; by vm_compute. Qed.

(** C6: with a stored handle [h], [stop] returns, marks the task not running,
    forgets the handle and disarms the native timer [h].  For a repeating task
    it resolves and clears the cached completion; for a one-shot task the
    cached completion stays as it was and no promise is resolved. *)
Theorem stop_success σ t h :
  handle σ t = Some h →
  ∃ σ', stop t σ = (Ok tt, σ') ∧
    get_isRunning (heap σ') t = false ∧
    handle σ' t = None ∧
    armed σ' !! h = None ∧
    if get_repeat (heap σ) t then
      pending σ' t = None ∧
      log σ' = match pending σ t with
               | Some p => Resolve p :: ClearInterval h :: log σ
               | None => ClearInterval h :: log σ
               end ∧
      (∀ p, pending σ t = Some p → resolved σ' p)
    else
      pending σ' t = pending σ t ∧
      log σ' = ClearTimeout h :: log σ ∧
      (∀ p, resolved σ' p ↔ resolved σ p).
Proof.
  intros Hh. exists (stopped σ t h). split; [by apply stop_Some|].
  unfold handle, pending, resolved, stopped, stop_events. simpl.
  rewrite get_isRunning_alter_false, !lookup_delete_eq. split_and!; try done.
  destruct (get_repeat (heap σ) t).
  - rewrite lookup_delete_eq. split_and!; [done| |].
    + by destruct (PROMISE_RESOLVE_FUNCTION_MAP σ !! t).
    + intros p ->. set_solver.
  - split_and!; [done..|]. intros p. set_solver.
Qed.

Lemma stop_success_witness :
  let σ := exec [New 100 false; Run 0] init in
  handle σ 0 = Some 0 ∧
  ∃ σ', stop 0 σ = (Ok tt, σ') ∧ pending σ' 0 = Some 0 ∧
        log σ' = ClearTimeout 0 :: log σ.
Proof.
  split; [reflexivity|].
  destruct (stop_success (exec [New 100 false; Run 0] init) 0 0 eq_refl)
    as (σ' & Hs & _ & _ & _ & Hp & Hl & _).
  exists σ'. split_and!; [exact Hs | exact Hp | exact Hl].
Defined.


(** C2 fails on a repeating task: the second [run] resolves the completion of
    the first and caches a new one. *)
Lemma run_resolves_interval_pending :
  ¬ run_keeps_pending (exec [New 100 true; Run 0] init) 0.
Proof.
  intros Hk. destruct (Hk 0 0) as [Hp _]; [reflexivity..| |discriminate Hp].
  unfold resolved. vm_compute log. set_solver.
Qed.

(** C2, amended: [run] on a task with a stored handle [h] and a cached
    completion [p] first disarms [h] and then arms a fresh native timer.  For a
    one-shot task [p] stays cached and unresolved; for a repeating task the
    internal [stop] resolves and clears [p], and the new promise is cached in
    its place. *)
Theorem run_rearms σ t h p :
  reachable σ → handle σ t = Some h → pending σ t = Some p →
  ∃ σ', run t σ = (Ok (next_promise σ), σ') ∧
    get_isRunning (heap σ') t = true ∧
    handle σ' t = Some (next_uuid σ) ∧
    armed σ' !! h = None ∧
    armed σ' !! next_uuid σ = Some (t, kind_of (get_repeat (heap σ) t)) ∧
    if get_repeat (heap σ) t then
      log σ' = SetInterval (next_uuid σ) t (get_duration (heap σ) t)
                 :: Resolve p :: ClearInterval h :: log σ ∧
      pending σ' t = Some (next_promise σ) ∧
      ¬ resolved σ' (next_promise σ)
    else
      log σ' = Resolve (next_promise σ)
                 :: SetTimeout (next_uuid σ) t (get_duration (heap σ) t)
                 :: ClearTimeout h :: log σ ∧
      pending σ' t = Some p ∧
      ¬ resolved σ' p.
Proof.
  intros Hr Hh Hp. apply reachable_inv in Hr as Hinv.
  exists (started σ t). split; [apply run_eq|].
  pose proof (inv_handle_lt _ _ _ Hinv Hh) as Hlt.
  pose proof (uuid_bound _ Hinv _ _ Hh) as Hub.
  pose proof (pending_bound _ Hinv _ _ Hp) as Hpb.
  pose proof (pending_unresolved _ Hinv _ _ Hp) as Hpu.
  unfold handle, pending, resolved in *.
  unfold started, disarmed. rewrite Hh.
  unfold rearmed, stopped, start_event, stop_events; simpl.
  rewrite !get_repeat_alter, !get_duration_alter.
  rewrite get_isRunning_alter_eq by (by rewrite length_alter).
  rewrite !lookup_insert_eq. rewrite lookup_insert_ne by lia.
  rewrite lookup_delete_eq. split_and!; try done.
  destruct (get_repeat (heap σ) t); simpl.
  - rewrite lookup_delete_eq, Hp, lookup_insert_eq. split_and!; try done.
    assert (p ≠ next_promise σ) by lia.
    intros Hin. assert (Resolve (next_promise σ) ∈ log σ) as Hin' by set_solver.
    apply (resolved_bound _ Hinv) in Hin'. lia.
  - rewrite Hp. split_and!; try done.
    assert (p ≠ next_promise σ) by lia. set_solver.
Qed.

Lemma run_rearms_witness :
  let σ := exec [New 100 false; Run 0] init in
  reachable σ ∧ handle σ 0 = Some 0 ∧ pending σ 0 = Some 0 ∧
  ∃ σ', run 0 σ = (Ok 1, σ') ∧ pending σ' 0 = Some 0 ∧ ¬ resolved σ' 0.
Proof.
  assert (reachable (exec [New 100 false; Run 0] init)) as Hr.
  { apply (reachable_call _ (Run 0)); [|simpl; lia].
    apply (reachable_call _ (New 100 false)); [constructor | exact I]. }
  split_and!; [exact Hr | reflexivity | reflexivity |].
  destruct (run_rearms _ 0 0 0 Hr eq_refl eq_refl)
    as (σ' & Hrun & _ & _ & _ & _ & _ & Hp & Hu).
  exists σ'. split_and!; [exact Hrun | exact Hp | exact Hu].
Defined.




Lemma disarmed_pending_None σ t :
  pending σ t = None → pending (disarmed σ t) t = None.
Proof.
  unfold pending, disarmed. intros Hp.
  destruct (UUID_MAP σ !! t); [|done]. simpl.
  destruct (get_repeat (heap σ) t); [apply lookup_delete_eq | done].
Qed.

Lemma disarmed_next_promise σ t :
  next_promise (disarmed σ t) = next_promise σ.
Proof. unfold disarmed. by destruct (UUID_MAP σ !! t). Qed.

Lemma disarmed_repeat σ t t' :
  get_repeat (heap (disarmed σ t)) t' = get_repeat (heap σ) t'.
Proof.
  unfold disarmed. destruct (UUID_MAP σ !! t); [|done].
  simpl. apply get_repeat_alter.
Qed.

Lemma disarmed_id σ t : UUID_MAP σ !! t = None → disarmed σ t = σ.
Proof. unfold disarmed. by intros ->. Qed.




(** C3, on the source: after the one-shot timer of a fresh task has fired
    (callback invoked, completion resolved, native timer spent) the task still
    has [isRunning = true] and still stores the spent handle, so that [stop]
    returns instead of raising. *)
Theorem one_shot_fire_stays_running :
  let σ := exec [New 100 false; Run 0; Fire 0] init in
  log σ = [Resolve 0; Callback 0; SetTimeout 0 0 100] ∧
  armed σ !! 0 = None ∧
  get_isRunning (heap σ) 0 = true ∧
  handle σ 0 = Some 0 ∧
  (stop 0 σ).1 = Ok tt.
Proof. by vm_compute. Qed.

Lemma stop_view_idemp r v : stop_view r (stop_view r v) = stop_view r v.
Proof. by destruct v as [[[run [h|]] cached] native]. Qed.

Lemma view_disarmed_eq σ t :
  view (disarmed σ t) t = stop_view (get_repeat (heap σ) t) (view σ t).
Proof.
  unfold view, disarmed. destruct (UUID_MAP σ !! t) as [h|] eqn:Hh; simpl.
  - rewrite get_isRunning_alter_false, lookup_delete_eq. simpl.
    destruct (get_repeat (heap σ) t); by rewrite ?lookup_delete_eq.
  - by rewrite Hh.
Qed.

Lemma view_disarmed_ne σ t t' :
  inv σ → t ≠ t' → view (disarmed σ t') t = view σ t.
Proof.
  intros Hinv Hne. unfold view, disarmed.
  destruct (UUID_MAP σ !! t') as [h'|] eqn:Hh'; [|done]. simpl.
  rewrite get_isRunning_alter_ne, lookup_delete_ne by done.
  f_equal; [f_equal|].
  - destruct (get_repeat (heap σ) t'); by rewrite ?lookup_delete_ne.
  - destruct (UUID_MAP σ !! t) as [h|] eqn:Hh; [|done]. simpl.
    rewrite lookup_delete_ne; [done|]. intros ->.
    apply Hne. by apply (uuid_inj _ Hinv _ _ _ Hh Hh').
Qed.

Lemma view_rearmed_ne σ t t' :
  inv σ → t ≠ t' → view (rearmed σ t') t = view σ t.
Proof.
  intros Hinv Hne. unfold view, rearmed. simpl.
  rewrite get_isRunning_alter_ne, lookup_insert_ne by done.
  f_equal; [f_equal|].
  - destruct (PROMISE_RESOLVE_FUNCTION_MAP σ !! t'); by rewrite ?lookup_insert_ne.
  - destruct (UUID_MAP σ !! t) as [h|] eqn:Hh; [|done]. simpl.
    rewrite lookup_insert_ne; [done|].
    apply (uuid_bound _ Hinv) in Hh. lia.
Qed.

Lemma view_unregistered_ne σ t t' :
  t ≠ t' → view (unregistered σ t') t = view σ t.
Proof. intros Hne. unfold view. simpl. by rewrite lookup_delete_ne. Qed.

Lemma view_unregistered_eq σ t :
  UUID_MAP σ !! t = None → view (unregistered σ t) t = view σ t.
Proof. intros Hh. unfold view. simpl. by rewrite lookup_delete_eq, Hh. Qed.

Lemma view_started_ne σ t t' :
  inv σ → t ≠ t' → view (started σ t') t = view σ t.
Proof.
  intros Hinv Hne. unfold started.
  rewrite view_rearmed_ne by (done || by apply inv_disarmed).
  by apply view_disarmed_ne.
Qed.

Lemma view_cleared_ne σ t t' :
  inv σ → t ≠ t' → view (cleared σ t') t = view σ t.
Proof.
  intros Hinv Hne. unfold cleared. rewrite view_unregistered_ne by done.
  by apply view_disarmed_ne.
Qed.

Lemma view_cleared_eq σ t :
  view (cleared σ t) t = stop_view (get_repeat (heap σ) t) (view σ t).
Proof.
  unfold cleared. rewrite view_unregistered_eq by apply disarmed_no_handle.
  apply view_disarmed_eq.
Qed.

Lemma TIMERS_disarmed σ t : TIMERS (disarmed σ t) = TIMERS σ.
Proof. unfold disarmed. by destruct (UUID_MAP σ !! t). Qed.

Lemma TIMERS_started σ t : TIMERS (started σ t) = TIMERS σ.
Proof. unfold started. simpl. apply TIMERS_disarmed. Qed.

Lemma elem_of_TIMERS_cleared σ t t' :
  t ∈ TIMERS (cleared σ t') ↔ t ∈ TIMERS σ ∧ t ≠ t'.
Proof.
  unfold cleared. simpl. by rewrite elem_of_Set_delete, TIMERS_disarmed.
Qed.

Lemma cleared_repeat σ t t' :
  get_repeat (heap (cleared σ t)) t' = get_repeat (heap σ) t'.
Proof. unfold cleared. simpl. apply disarmed_repeat. Qed.

(** A loop whose body leaves its task as [stop] would and the other tasks
    alone, and at most deregisters its task. *)
Section stopping_loops.
Context (f : nat → M unit) (X : world → nat → world).
Hypothesis f_X : ∀ σ a, inv σ → f a σ = (Ok tt, X σ a).
Hypothesis X_inv : ∀ σ a, inv σ → inv (X σ a).
Hypothesis X_eq : ∀ σ a,
  view (X σ a) a = stop_view (get_repeat (heap σ) a) (view σ a).
Hypothesis X_ne : ∀ σ a t, inv σ → t ≠ a → view (X σ a) t = view σ t.
Hypothesis X_repeat : ∀ σ a t,
  get_repeat (heap (X σ a)) t = get_repeat (heap σ) t.
Hypothesis X_TIMERS : ∀ σ a t, t ≠ a → t ∈ TIMERS (X σ a) ↔ t ∈ TIMERS σ.

Lemma stopping_loop_returns l σ : inv σ → (forEach f l σ).1 = Ok tt.
Proof.
  apply (forEach_returns inv).
  - intros t σ' Hinv _. rewrite f_X by done. by apply X_inv.
  - intros t σ' Hinv _. by rewrite f_X.
Qed.

Lemma stopping_loop_view l σ t :
  inv σ →
  view (forEach f l σ).2 t =
  if bool_decide (t ∈ l ∧ t ∈ TIMERS σ)
  then stop_view (get_repeat (heap σ) t) (view σ t)
  else view σ t.
Proof.
  revert σ. induction l as [|a l IH]; intros σ Hinv.
  { rewrite bool_decide_eq_false_2; [done|]. intros [[]%elem_of_nil _]. }
  rewrite forEach_cons. case_bool_decide as Ha.
  - rewrite f_X by done. rewrite IH by (by apply X_inv).
    destruct (decide (t = a)) as [->|Hne].
    + rewrite (bool_decide_eq_true_2 (a ∈ a :: l ∧ _)) by set_solver.
      rewrite X_repeat, X_eq. case_bool_decide; [|done].
      apply stop_view_idemp.
    + rewrite X_repeat, X_ne by done.
      rewrite (bool_decide_ext (t ∈ l ∧ t ∈ TIMERS (X σ a))
                 (t ∈ a :: l ∧ t ∈ TIMERS σ)); [done|].
      rewrite X_TIMERS by done. set_solver.
  - rewrite IH by done.
    rewrite (bool_decide_ext (t ∈ l ∧ t ∈ TIMERS σ)
               (t ∈ a :: l ∧ t ∈ TIMERS σ)); [done|]. set_solver.
Qed.

Lemma stopping_loop_inv l σ : inv σ → inv (forEach f l σ).2.
Proof.
  apply (forEach_preserves inv).
  intros t σ' Hinv _. rewrite f_X by done. by apply X_inv.
Qed.
End stopping_loops.

Lemma stop_view_idle r v : v.1.1.2 = None → stop_view r v = v.
Proof. destruct v as [[[run [h|]] cached] native]; naive_solver. Qed.

Lemma stop_view_spec r v :
  (stop_view r v).1.1.2 = None ∧ (v.1.1.1 = false → (stop_view r v).1.1.1 = false).
Proof. by destruct v as [[[run [h|]] cached] native]. Qed.

Lemma view_stopTimer σ t :
  inv σ → view (stopTimer t σ).2 t = stop_view (get_repeat (heap σ) t) (view σ t).
Proof. intros Hinv. rewrite stopTimer_inv by done. apply view_disarmed_eq. Qed.

(** A task the loop has stopped is idle and owns no armed native timer. *)
Lemma stopped_view_idle σ σ' t :
  inv σ → inv σ' →
  view σ' t = stop_view (get_repeat (heap σ) t) (view σ t) →
  get_isRunning (heap σ') t = false ∧ handle σ' t = None ∧
  ∀ h k, armed σ' !! h ≠ Some (t, k).
Proof.
  intros Hinv Hinv' Hv.
  assert (handle σ' t = None) as Hh.
  { destruct (stop_view_spec (get_repeat (heap σ) t) (view σ t)) as [H _].
    rewrite <- Hv in H. exact H. }
  split_and!; [|done|].
  - by apply handle_None_running.
  - intros h k Ha. apply (armed_owner _ Hinv') in Ha as [Ha _].
    unfold handle in Hh. congruence.
Qed.

(** C5: in a reachable state [stopTimers] returns normally.  Afterwards every
    registered task is idle, stores no handle and owns no armed native timer;
    each registered running task is left as its own [stop] leaves it, and the
    idle or unregistered tasks are left as they were. *)
Theorem stopTimers_spec σ :
  reachable σ →
  ∃ σ', stopTimers σ = (Ok tt, σ') ∧
    TIMERS σ' = TIMERS σ ∧
    (∀ t, t ∈ TIMERS σ →
       get_isRunning (heap σ') t = false ∧ handle σ' t = None ∧
       ∀ h k, armed σ' !! h ≠ Some (t, k)) ∧
    (∀ t, t ∈ TIMERS σ → get_isRunning (heap σ) t = true →
       view σ' t = view (stop t σ).2 t) ∧
    (∀ t, t ∉ TIMERS σ ∨ get_isRunning (heap σ) t = false →
       view σ' t = view σ t).
Proof.
  intros Hinv%reachable_inv.
  exists (forEach stopTimer (TIMERS σ) σ).2.
  pose proof (stopping_loop_view stopTimer disarmed stopTimer_inv inv_disarmed
                view_disarmed_eq
                (λ σ a t Hi Hne, view_disarmed_ne σ t a Hi Hne)
                (λ σ a t, disarmed_repeat σ a t)) as Hview.
  assert (∀ σ a t, t ≠ a → t ∈ TIMERS (disarmed σ a) ↔ t ∈ TIMERS σ) as HT
    by (intros; by rewrite TIMERS_disarmed).
  specialize (Hview HT (TIMERS σ) σ).
  assert (inv (forEach stopTimer (TIMERS σ) σ).2) as Hinv'.
  { apply (forEach_preserves inv); [|done].
    intros; by apply inv_stopTimer. }
  split_and!.
  - unfold stopTimers. rewrite TIMERS_forEach_eq.
    rewrite (surjective_pairing (forEach _ _ _)). f_equal.
    apply (forEach_returns inv); [| |done].
    + intros; by apply inv_stopTimer.
    + intros t σ' Hi _. by rewrite stopTimer_inv.
  - apply (forEach_preserves (λ σ', inv σ' ∧ TIMERS σ' = TIMERS σ)); [|done].
    intros t σ' [Hi HT'] _. rewrite stopTimer_inv by done. cbn [snd].
    split; [by apply inv_disarmed | by rewrite TIMERS_disarmed].
  - intros t Ht. apply (stopped_view_idle σ); [done..|].
    rewrite Hview by done. by rewrite bool_decide_eq_true_2.
  - intros t Ht Hrun. rewrite Hview by done.
    rewrite bool_decide_eq_true_2 by done.
    change (stop t σ).2 with (after (Stop t) σ).
    by rewrite after_Stop, view_disarmed_eq.
  - intros t Hc. rewrite Hview by done. case_bool_decide as Hd; [|done].
    destruct Hc as [Hc|Hc]; [by destruct Hd|].
    apply stop_view_idle. simpl. by apply handle_None_running.
Qed.

Lemma stopTimers_spec_witness :
  let σ := exec [New 100 false; New 50 true; Run 0; Run 1; Stop 0] init in
  reachable σ ∧
  ∃ σ', stopTimers σ = (Ok tt, σ') ∧
        get_isRunning (heap σ') 1 = false ∧ view σ' 0 = view σ 0.
Proof.
  assert (reachable
            (exec [New 100 false; New 50 true; Run 0; Run 1; Stop 0] init))
    as Hr.
  { apply (reachable_call _ (Stop 0)); [|vm_compute; lia].
    apply (reachable_call _ (Run 1)); [|vm_compute; lia].
    apply (reachable_call _ (Run 0)); [|vm_compute; lia].
    apply (reachable_call _ (New 50 true)); [|exact I].
    apply (reachable_call _ (New 100 false)); [constructor | exact I]. }
  split; [exact Hr|].
  destruct (stopTimers_spec _ Hr) as (σ' & Hs & _ & Hidle & _ & Hframe).
  exists σ'. split_and!; [exact Hs | | ].
  - apply (Hidle 1). apply (list_elem_of_further 1 0 [1]), list_elem_of_here.
  - apply Hframe. right. reflexivity.
Defined.

Lemma clear_loop_keeps_absent l σ t :
  inv σ → t ∉ TIMERS σ → t ∉ TIMERS (forEach clearTimer l σ).2.
Proof.
  intros Hinv Ht.
  apply (forEach_preserves (λ σ', inv σ' ∧ t ∉ TIMERS σ')); [|done].
  intros a σ' [Hi Ha] _. rewrite clearTimer_inv by done. cbn [snd].
  split; [by apply inv_cleared|]. rewrite elem_of_TIMERS_cleared. tauto.
Qed.

Lemma clear_loop_absent l σ t :
  inv σ → t ∈ l → t ∉ TIMERS (forEach clearTimer l σ).2.
Proof.
  revert σ. induction l as [|a l IH]; intros σ Hinv Ht.
  { by apply elem_of_nil in Ht. }
  rewrite forEach_cons. destruct (decide (t = a)) as [->|Hne].
  - case_bool_decide as Ha.
    + rewrite clearTimer_inv by done.
      apply clear_loop_keeps_absent; [by apply inv_cleared|].
      rewrite elem_of_TIMERS_cleared. tauto.
    + by apply clear_loop_keeps_absent.
  - assert (t ∈ l) by set_solver. case_bool_decide.
    + rewrite clearTimer_inv by done. apply IH; [by apply inv_cleared | done].
    + by apply IH.
Qed.

Lemma clear_loop_subset l σ :
  inv σ → TIMERS (forEach clearTimer l σ).2 ⊆ TIMERS σ.
Proof.
  intros Hinv.
  apply (forEach_preserves (λ σ', inv σ' ∧ TIMERS σ' ⊆ TIMERS σ)); [|done].
  intros a σ' [Hi Ha] _. rewrite clearTimer_inv by done. cbn [snd].
  split; [by apply inv_cleared|]. intros t.
  rewrite elem_of_TIMERS_cleared. set_solver.
Qed.

(** The batch operations only visit registered tasks. *)
Lemma batch_frame σ t o :
  inv σ → t ∉ TIMERS σ → o ∈ [RunTimers; StopTimers; ClearTimers] →
  inv (after o σ) ∧ (t ∉ TIMERS (after o σ)) ∧ view (after o σ) t = view σ t.
Proof.
  intros Hinv Ht Ho.
  set (I := λ σ', inv σ' ∧ (t ∉ TIMERS σ') ∧ view σ' t = view σ t).
  assert (I σ) as HI by done.
  assert (∀ a σ', I σ' → a ∈ TIMERS σ' → I (stopTimer a σ').2) as Hstop.
  { intros a σ' (Hi & Ha & Hv) Hin. rewrite stopTimer_inv by done. cbn [snd].
    split_and!; [by apply inv_disarmed | by rewrite TIMERS_disarmed |].
    rewrite view_disarmed_ne; [done..|]. by intros ->. }
  assert (∀ a σ', I σ' → a ∈ TIMERS σ' → I (runTimer a σ').2) as Hrun.
  { intros a σ' (Hi & Ha & Hv) Hin. split_and!; [by apply inv_runTimer|..];
      rewrite runTimer_eq; cbn [snd];
      destruct (get_isRunning (heap σ') a); try done.
    - by rewrite TIMERS_started.
    - rewrite view_started_ne; [done..|]. by intros ->. }
  assert (∀ a σ', I σ' → a ∈ TIMERS σ' → I (clearTimer a σ').2) as Hclear.
  { intros a σ' (Hi & Ha & Hv) Hin. rewrite clearTimer_inv by done. cbn [snd].
    split_and!; [by apply inv_cleared | |].
    - rewrite elem_of_TIMERS_cleared. tauto.
    - rewrite view_cleared_ne; [done..|]. by intros ->. }
  repeat (apply elem_of_cons in Ho as [-> | Ho]);
    [by apply (forEach_preserves I).. | by apply elem_of_nil in Ho].
Qed.

(** C8: in a reachable state [clearTimers] returns normally and leaves the
    registry empty; every task that was registered is left as [stopTimer]
    leaves it, idle, without handle and without armed native timer.  A task
    that is not registered is not touched by [runTimers], [stopTimers] or
    [clearTimers], and stays unregistered. *)
Theorem clearTimers_spec :
  (∀ σ, reachable σ →
     ∃ σ', clearTimers σ = (Ok tt, σ') ∧ TIMERS σ' = [] ∧
       ∀ t, t ∈ TIMERS σ →
         view σ' t = view (stopTimer t σ).2 t ∧
         get_isRunning (heap σ') t = false ∧ handle σ' t = None ∧
         ∀ h k, armed σ' !! h ≠ Some (t, k)) ∧
  (∀ σ t o, reachable σ → t ∉ TIMERS σ →
     o ∈ [RunTimers; StopTimers; ClearTimers] →
     view (after o σ) t = view σ t ∧ t ∉ TIMERS (after o σ)).
Proof.
  split.
  - intros σ Hinv%reachable_inv.
    exists (forEach clearTimer (TIMERS σ) σ).2.
    assert (inv (forEach clearTimer (TIMERS σ) σ).2) as Hinv'.
    { apply (forEach_preserves inv); [|done]. intros; by apply inv_clearTimer. }
    split_and!.
    + unfold clearTimers. rewrite TIMERS_forEach_eq.
      rewrite (surjective_pairing (forEach _ _ _)). f_equal.
      apply (forEach_returns inv); [| |done].
      * intros; by apply inv_clearTimer.
      * intros t σ' Hi _. by rewrite clearTimer_inv.
    + apply elem_of_nil_inv. intros t Ht.
      apply (clear_loop_absent (TIMERS σ) σ t); [done| |done].
      by apply (clear_loop_subset (TIMERS σ) σ).
    + intros t Ht.
      assert (view (forEach clearTimer (TIMERS σ) σ).2 t
              = stop_view (get_repeat (heap σ) t) (view σ t)) as Hv.
      { rewrite (stopping_loop_view clearTimer cleared clearTimer_inv
                   inv_cleared view_cleared_eq
                   (λ σ a t Hi Hne, view_cleared_ne σ t a Hi Hne)
                   (λ σ a t, cleared_repeat σ a t)); [| |done].
        - by rewrite bool_decide_eq_true_2.
        - intros σ' a t' Hne. rewrite elem_of_TIMERS_cleared. tauto. }
      split; [by rewrite view_stopTimer|].
      by apply (stopped_view_idle σ).
  - intros σ t o Hinv%reachable_inv Ht Ho.
    destruct (batch_frame σ t o) as (_ & ? & ?); done.
Qed.

Lemma clearTimers_spec_witness :
  let σ := exec [New 100 false; New 50 true; New 20 false;
                 Run 0; Run 1; Run 2; Clear 2] init in
  reachable σ ∧
  TIMERS σ = [0; 1] ∧
  get_isRunning (heap σ) 0 = true ∧ get_isRunning (heap σ) 1 = true ∧
  armed σ !! 0 = Some (0, Timeout) ∧ armed σ !! 1 = Some (1, Interval) ∧
  (∃ σ', clearTimers σ = (Ok tt, σ') ∧ TIMERS σ' = [] ∧
     get_isRunning (heap σ') 0 = false ∧ handle σ' 0 = None ∧
     get_isRunning (heap σ') 1 = false ∧ handle σ' 1 = None ∧
     (∀ h k, armed σ' !! h ≠ Some (0, k)) ∧
     (∀ h k, armed σ' !! h ≠ Some (1, k))) ∧
  (2 ∉ TIMERS σ) ∧
  view (after RunTimers σ) 2 = view σ 2 ∧
  view (after StopTimers σ) 2 = view σ 2 ∧
  view (after ClearTimers σ) 2 = view σ 2.
Proof.
  assert (reachable
            (exec [New 100 false; New 50 true; New 20 false;
                   Run 0; Run 1; Run 2; Clear 2] init)) as Hr.
  { apply (reachable_call _ (Clear 2)); [|vm_compute; lia].
    apply (reachable_call _ (Run 2)); [|vm_compute; lia].
    apply (reachable_call _ (Run 1)); [|vm_compute; lia].
    apply (reachable_call _ (Run 0)); [|vm_compute; lia].
    apply (reachable_call _ (New 20 false)); [|exact I].
    apply (reachable_call _ (New 50 true)); [|exact I].
    apply (reachable_call _ (New 100 false)); [constructor | exact I]. }
  assert (TIMERS (exec [New 100 false; New 50 true; New 20 false;
                        Run 0; Run 1; Run 2; Clear 2] init) = [0; 1]) as HT
    by reflexivity.
  assert (2 ∉ TIMERS (exec [New 100 false; New 50 true; New 20 false;
                            Run 0; Run 1; Run 2; Clear 2] init)) as Hn.
  { rewrite HT. intros [[=]|[[=]|[]%elem_of_nil]%elem_of_cons]%elem_of_cons. }
  destruct clearTimers_spec as [Hclear Hframe].
  split_and!; [exact Hr | exact HT | reflexivity.. | | exact Hn | | | ].
  - destruct (Hclear _ Hr) as (σ' & Hc & He & Ht).
    rewrite HT in Ht.
    destruct (Ht 0 (list_elem_of_here 0 [1])) as (_ & Hi0 & Hh0 & Ha0).
    destruct (Ht 1 (list_elem_of_further 1 0 [1] (list_elem_of_here 1 [])))
      as (_ & Hi1 & Hh1 & Ha1).
    exists σ'. split_and!; assumption.
  - apply (Hframe _ 2 RunTimers Hr Hn). apply list_elem_of_here.
  - apply (Hframe _ 2 StopTimers Hr Hn).
    apply list_elem_of_further, list_elem_of_here.
  - apply (Hframe _ 2 ClearTimers Hr Hn).
    apply list_elem_of_further, list_elem_of_further, list_elem_of_here.
Defined.

Lemma quiet_refl σ : quiet σ σ.
Proof. exists []. split; [done|]. intros t. apply not_elem_of_nil. Qed.

Lemma quiet_trans σ1 σ2 σ3 : quiet σ1 σ2 → quiet σ2 σ3 → quiet σ1 σ3.
Proof.
  intros (e1 & H1 & N1) (e2 & H2 & N2). exists (e2 ++ e1).
  split; [by rewrite H2, H1, app_assoc|]. intros t. set_solver.
Qed.

Lemma quiet_calls σ σ' t : quiet σ σ' → calls σ' t = calls σ t.
Proof.
  intros (evs & H & Hn). unfold calls. rewrite H, filter_app, length_app.
  assert (filter (λ e, e = Callback t) evs = []) as ->; [|done].
  clear -Hn. induction evs as [|e evs IH]; [done|].
  rewrite filter_cons_False by set_solver. apply IH. set_solver.
Qed.

Lemma quiet_resolved σ σ' p : quiet σ σ' → resolved σ p → resolved σ' p.
Proof. intros (evs & H & _). unfold resolved. rewrite H. set_solver. Qed.

Lemma quiet_disarmed σ t : quiet σ (disarmed σ t).
Proof.
  unfold disarmed. destruct (UUID_MAP σ !! t) as [h|]; [|apply quiet_refl].
  exists (stop_events σ t h). split; [done|]. intros t' Hin.
  apply in_stop_events in Hin. naive_solver.
Qed.

Lemma quiet_rearmed σ t : quiet σ (rearmed σ t).
Proof.
  unfold quiet, rearmed, start_event. simpl.
  destruct (PROMISE_RESOLVE_FUNCTION_MAP σ !! t), (get_repeat (heap σ) t);
    [eexists [_; _] | eexists [_; _] | eexists [_] | eexists [_]];
    (split; [reflexivity|]); intros t'; set_solver.
Qed.

Lemma quiet_started σ t : quiet σ (started σ t).
Proof.
  eapply quiet_trans; [apply quiet_disarmed | apply quiet_rearmed].
Qed.

Lemma quiet_cleared σ t : quiet σ (cleared σ t).
Proof.
  destruct (quiet_disarmed σ t) as (evs & H & Hn). by exists evs.
Qed.

Lemma quiet_constructed σ d r : quiet σ (constructed σ d r).
Proof. exists []. split; [done|]. intros t. apply not_elem_of_nil. Qed.

Lemma view_pending σ σ' t : view σ' t = view σ t → pending σ' t = pending σ t.
Proof. unfold view, pending. by intros [= _ _ ? _]. Qed.

Lemma view_handle σ σ' t : view σ' t = view σ t → handle σ' t = handle σ t.
Proof. unfold view, handle. by intros [= _ ? _ _]. Qed.

Lemma disarmed_pending_timeout σ t :
  get_repeat (heap σ) t = false → pending (disarmed σ t) t = pending σ t.
Proof.
  intros Hr. unfold pending, disarmed. destruct (UUID_MAP σ !! t); [|done].
  simpl. by rewrite Hr.
Qed.

Lemma exec_snoc os o σ : exec (os ++ [o]) σ = after o (exec os σ).
Proof. unfold exec. by rewrite foldl_app. Qed.

Lemma runs_snoc os o σ :
  runs (os ++ [o]) σ ↔ runs os σ ∧ possible (exec os σ) o.
Proof.
  revert σ. induction os as [|o' os IH]; intros σ; simpl; [tauto|].
  rewrite IH. tauto.
Qed.

Lemma quiet_stopTimer σ t : inv σ → quiet σ (stopTimer t σ).2.
Proof. intros Hinv. rewrite stopTimer_inv by done. apply quiet_disarmed. Qed.

Lemma quiet_runTimer σ t : quiet σ (runTimer t σ).2.
Proof.
  rewrite runTimer_eq. cbn [snd].
  destruct (get_isRunning (heap σ) t); [apply quiet_refl | apply quiet_started].
Qed.

Lemma quiet_clearTimer σ t : inv σ → quiet σ (clearTimer t σ).2.
Proof. intros Hinv. rewrite clearTimer_inv by done. apply quiet_cleared. Qed.

Lemma quiet_forEach f l σ :
  (∀ t σ', inv σ' → t ∈ TIMERS σ' → inv (f t σ').2 ∧ quiet σ' (f t σ').2) →
  inv σ → quiet σ (forEach f l σ).2.
Proof.
  intros Hf Hinv.
  assert (inv (forEach f l σ).2 ∧ quiet σ (forEach f l σ).2) as [_ H]; [|done].
  apply (forEach_preserves (λ σ', inv σ' ∧ quiet σ σ')).
  - intros t σ' [Hi Hq] Hin. destruct (Hf t σ' Hi Hin) as [Hi' Hq'].
    split; [done|]. by eapply quiet_trans.
  - split; [done | apply quiet_refl].
Qed.

(** Every call that is not a firing is quiet. *)
Lemma quiet_after σ o :
  inv σ → possible σ o → (∀ h, o ≠ Fire h) → quiet σ (after o σ).
Proof.
  intros Hinv Hp Hf. destruct o as [d r|t|t|t| | | |h].
  - rewrite after_New. apply quiet_constructed.
  - rewrite after_Run. apply quiet_started.
  - rewrite after_Stop. apply quiet_disarmed.
  - rewrite after_Clear by done. apply quiet_cleared.
  - apply quiet_forEach; [|done]. intros t σ' Hi Hin.
    split; [by apply inv_runTimer | apply quiet_runTimer].
  - apply quiet_forEach; [|done]. intros t σ' Hi Hin.
    split; [by apply inv_stopTimer | by apply quiet_stopTimer].
  - apply quiet_forEach; [|done]. intros t σ' Hi Hin.
    split; [by apply inv_clearTimer | by apply quiet_clearTimer].
  - by destruct (Hf h).
Qed.

Lemma log_fired σ h :
  log (fired σ h) =
  match armed σ !! h with
  | Some (t, k) => fire_events σ t k ++ log σ
  | None => log σ
  end.
Proof. unfold fired. by destruct (armed σ !! h) as [[t []]|]. Qed.

Lemma resolved_after σ o p :
  inv σ → possible σ o → resolved σ p → resolved (after o σ) p.
Proof.
  intros Hinv Hp Hres.
  assert ((∃ h, o = Fire h) ∨ ∀ h, o ≠ Fire h) as [[h ->]|Hn]
    by (destruct o; eauto).
  - rewrite after_Fire. unfold resolved. rewrite log_fired.
    destruct (armed σ !! h) as [[t k]|]; [|done]. set_solver.
  - apply (quiet_resolved σ); [|done]. by apply quiet_after.
Qed.

Lemma resolved_runs os σ p :
  inv σ → runs os σ → resolved σ p → resolved (exec os σ) p.
Proof.
  revert σ. induction os as [|o os IH]; intros σ Hinv Hr Hres; [done|].
  destruct Hr as [Hp Hr]. simpl.
  apply IH; [by apply inv_after | done | by apply resolved_after].
Qed.

Section awaiting.
Context (t p c : nat).

Lemma awaiting_disarmed σ a : awaiting t p c σ → awaiting t p c (disarmed σ a).
Proof.
  intros (Hinv & Hlt & Hr & Hp & Hc). split_and!.
  - by apply inv_disarmed.
  - by rewrite disarmed_length.
  - by rewrite disarmed_repeat.
  - destruct (decide (t = a)) as [<-|Hne].
    + by rewrite disarmed_pending_timeout.
    + rewrite <- Hp. by apply view_pending, view_disarmed_ne.
  - rewrite <- Hc. apply quiet_calls, quiet_disarmed.
Qed.

Lemma awaiting_rearmed σ a :
  awaiting t p c σ → handle σ a = None → a < length (heap σ) →
  awaiting t p c (rearmed σ a).
Proof.
  intros (Hinv & Hlt & Hr & Hp & Hc) Ha Hla. split_and!.
  - by apply inv_rearmed.
  - simpl. by rewrite length_alter.
  - simpl. by rewrite get_repeat_alter.
  - destruct (decide (t = a)) as [<-|Hne].
    + unfold pending in *. simpl. by rewrite Hp.
    + rewrite <- Hp. by apply view_pending, view_rearmed_ne.
  - rewrite <- Hc. apply quiet_calls, quiet_rearmed.
Qed.

Lemma awaiting_started σ a :
  awaiting t p c σ → a < length (heap σ) → awaiting t p c (started σ a).
Proof.
  intros Haw Hla. apply awaiting_rearmed.
  - by apply awaiting_disarmed.
  - apply disarmed_no_handle.
  - by rewrite disarmed_length.
Qed.

Lemma awaiting_cleared σ a : awaiting t p c σ → awaiting t p c (cleared σ a).
Proof.
  intros Haw. pose proof (awaiting_disarmed σ a Haw) as (_ & ? & ? & ? & ?).
  destruct Haw as (Hinv & _). split_and!; [by apply inv_cleared | done..].
Qed.

Lemma awaiting_constructed σ d r :
  awaiting t p c σ → awaiting t p c (constructed σ d r).
Proof.
  intros (Hinv & Hlt & Hr & Hp & Hc). split_and!; [|simpl..|done|done].
  - by apply inv_constructed.
  - rewrite length_app. simpl. lia.
  - by rewrite get_repeat_app.
Qed.

Lemma awaiting_fired σ h :
  awaiting t p c σ →
  awaiting t p c (fired σ h) ∨
  armed σ !! h = Some (t, Timeout) ∧
  log (fired σ h) = Resolve p :: Callback t :: log σ.
Proof.
  intros (Hinv & Hlt & Hr & Hp & Hc).
  destruct (armed σ !! h) as [[a k]|] eqn:Ha.
  2: { left. unfold fired. rewrite Ha. by unfold awaiting. }
  destruct (decide (a = t)) as [->|Hne].
  - right. destruct (armed_owner _ Hinv _ _ _ Ha) as [_ Hk].
    rewrite Hr in Hk. simpl in Hk. subst k.
    split; [done|]. rewrite log_fired, Ha.
    unfold fire_events, pending in *. by rewrite Hp.
  - left. split_and!.
    + by apply inv_fired.
    + unfold fired. rewrite Ha. by destruct k.
    + unfold fired. rewrite Ha. by destruct k.
    + unfold pending, fired in *. rewrite Ha.
      destruct k; simpl; [by rewrite lookup_delete_ne | done].
    + rewrite <- Hc. unfold calls. rewrite log_fired, Ha, filter_app, length_app.
      assert (filter (λ e, e = Callback t) (fire_events σ a k) = []) as ->;
        [|done].
      unfold fire_events.
      destruct k, (PROMISE_RESOLVE_FUNCTION_MAP σ !! a);
        rewrite ?filter_cons_False, ?filter_nil by congruence; done.
Qed.

Lemma awaiting_forEach f l σ :
  (∀ a σ', awaiting t p c σ' → a ∈ TIMERS σ' → awaiting t p c (f a σ').2) →
  awaiting t p c σ → awaiting t p c (forEach f l σ).2.
Proof. intros Hf. by apply (forEach_preserves (awaiting t p c)). Qed.

Lemma awaiting_after σ o :
  awaiting t p c σ → possible σ o →
  awaiting t p c (after o σ) ∨
  ∃ h, o = Fire h ∧ armed σ !! h = Some (t, Timeout) ∧
       log (after o σ) = Resolve p :: Callback t :: log σ.
Proof.
  intros Haw Hp. pose proof Haw as (Hinv & _).
  destruct o as [d r|a|a|a| | | |h].
  - left. rewrite after_New. by apply awaiting_constructed.
  - left. rewrite after_Run. by apply awaiting_started.
  - left. rewrite after_Stop. by apply awaiting_disarmed.
  - left. rewrite after_Clear by done. by apply awaiting_cleared.
  - left. apply awaiting_forEach; [|done]. intros a σ' Ha Hin.
    rewrite runTimer_eq. cbn [snd].
    destruct (get_isRunning (heap σ') a); [done|].
    apply awaiting_started; [done|]. destruct Ha as (Hi & _).
    by apply (timers_bound _ Hi).
  - left. apply awaiting_forEach; [|done]. intros a σ' Ha Hin.
    rewrite stopTimer_inv by apply Ha. by apply awaiting_disarmed.
  - left. apply awaiting_forEach; [|done]. intros a σ' Ha Hin.
    rewrite clearTimer_inv by apply Ha. by apply awaiting_cleared.
  - rewrite after_Fire. destruct (awaiting_fired σ h Haw) as [?|[? ?]];
      [by left | right; eauto].
Qed.

Lemma awaiting_unresolved σ : awaiting t p c σ → ¬ resolved σ p.
Proof. intros (Hinv & _ & _ & Hp & _). by apply (pending_unresolved _ Hinv t). Qed.

Lemma awaiting_runs os σ :
  awaiting t p c σ → runs os σ → ¬ resolved (exec os σ) p →
  awaiting t p c (exec os σ).
Proof.
  revert σ. induction os as [|o os IH]; intros σ Haw Hr Hu; [done|].
  destruct Hr as [Hp Hr]. simpl in *.
  destruct (awaiting_after σ o Haw Hp) as [Haw'|(h & -> & Ha & Hl)].
  - by apply IH.
  - destruct Hu. destruct Haw as (Hinv & _).
    apply resolved_runs; [by apply inv_after | done |].
    unfold resolved. rewrite Hl. set_solver.
Qed.
End awaiting.

(** C7, on the source: [run] on a one-shot task that was run and stopped
    returns a handle that [run] itself resolves ([else resolve()]): when the
    call returns the handle is resolved, the new timer is still armed and the
    callback has not been invoked, so that awaiting the handle does not wait
    for the callback. *)
Theorem resumed_run_resolves_at_once :
  let σ := exec [New 100 false; Run 0; Stop 0] init in
  (run 0 σ).1 = Ok 1 ∧
  log (run 0 σ).2
    = [Resolve 1; SetTimeout 1 0 100; ClearTimeout 0; SetTimeout 0 0 100] ∧
  armed (run 0 σ).2 !! 1 = Some (0, Timeout) ∧
  calls (run 0 σ).2 0 = 0 ∧
  ¬ awaits_one_call σ 0.
Proof.
  split_and!; try (by vm_compute).
  intros H.
  specialize (H (run 0 (exec [New 100 false; Run 0; Stop 0] init)).2).
  assert (calls (run 0 (exec [New 100 false; Run 0; Stop 0] init)).2 0 = 0)
    as Hc by reflexivity.
  rewrite Hc in H. discriminate H. split; [|by left].
  unfold resolved. vm_compute. apply list_elem_of_here.
Qed.

(** The rest of the closure of [startTimeout]: the firing of a one-shot
    task's native timer invokes the callback and, when the callback returns,
    resolves and clears the cached completion.  When [run] is called on a
    one-shot task without a cached completion, the returned handle is
    unresolved, the firing of the new timer resolves it, and at the point
    where it resolves the callback has been invoked exactly once since the
    call. *)
Theorem one_shot_completion :
  (∀ σ t h k, reachable σ → get_repeat (heap σ) t = false →
     armed σ !! h = Some (t, k) →
     ∃ σ', fire h σ = (Ok tt, σ') ∧
       pending σ' t = None ∧ armed σ' !! h = None ∧
       calls σ' t = S (calls σ t) ∧
       log σ' = match pending σ t with
                | Some p => Resolve p :: Callback t :: log σ
                | None => Callback t :: log σ
                end) ∧
  (∀ σ t, reachable σ → t < length (heap σ) →
     get_repeat (heap σ) t = false → pending σ t = None →
     (run t σ).1 = Ok (next_promise σ) ∧
     ¬ resolved (run t σ).2 (next_promise σ) ∧
     resolved (fire (next_uuid σ) (run t σ).2).2 (next_promise σ) ∧
     awaits_one_call σ t).
Proof.
  split.
  - intros σ t h k Hinv%reachable_inv Hr Ha.
    destruct (armed_owner _ Hinv _ _ _ Ha) as [_ Hk].
    rewrite Hr in Hk. simpl in Hk. subst k.
    exists (fired σ h). split; [apply fire_eq|].
    unfold pending, calls. rewrite log_fired. unfold fired, fire_events.
    rewrite Ha. simpl. rewrite !lookup_delete_eq. split_and!; [done..| |].
    + destruct (PROMISE_RESOLVE_FUNCTION_MAP σ !! t); simpl;
        rewrite ?filter_cons_False, filter_cons_True by congruence; done.
    + by destruct (PROMISE_RESOLVE_FUNCTION_MAP σ !! t).
  - intros σ t Hinv%reachable_inv Hlt Hr Hp.
    assert (awaiting t (next_promise σ) (calls σ t) (started σ t)) as Haw.
    { pose proof (quiet_started σ t) as Hq. apply quiet_calls with (t := t) in Hq.
      split_and!; [by apply inv_started | | | | done].
      - unfold started. simpl. by rewrite length_alter, disarmed_length.
      - unfold started. simpl. by rewrite get_repeat_alter, disarmed_repeat.
      - unfold started, pending. simpl.
        pose proof (disarmed_pending_None σ t Hp) as Hp'.
        unfold pending in Hp'. rewrite Hp', lookup_insert_eq.
        by rewrite disarmed_next_promise. }
    rewrite run_eq. cbn [fst snd]. split_and!; [done| | |].
    + by apply (awaiting_unresolved t _ (calls σ t)).
    + rewrite fire_eq. cbn [snd].
      assert (armed (started σ t) !! next_uuid σ = Some (t, Timeout)) as Ha.
      { unfold started. simpl. rewrite disarmed_repeat, Hr.
        replace (next_uuid (disarmed σ t)) with (next_uuid σ);
          [apply lookup_insert_eq|].
        unfold disarmed. by destruct (UUID_MAP σ !! t). }
      destruct Haw as (_ & _ & _ & Hq & _). unfold pending in Hq.
      unfold resolved. rewrite log_fired, Ha. unfold fire_events.
      rewrite Hq. apply list_elem_of_here.
    + unfold awaits_one_call. rewrite run_eq. cbn [snd].
      intros σ' [Hres [->|(os & o & Hruns & Hu & ->)]].
      { by apply (awaiting_unresolved _ _ _ _ Haw) in Hres. }
      apply runs_snoc in Hruns as [Hruns Hposs]. rewrite exec_snoc in *.
      pose proof (awaiting_runs _ _ _ os _ Haw Hruns Hu) as Haw'.
      destruct (awaiting_after _ _ _ _ o Haw' Hposs)
        as [Haw''|(h & -> & Ha & Hl)].
      { by apply (awaiting_unresolved _ _ _ _ Haw'') in Hres. }
      destruct Haw' as (_ & _ & _ & _ & Hc).
      unfold calls in *. rewrite Hl.
      rewrite filter_cons_False, filter_cons_True by congruence.
      simpl. by rewrite Hc.
Qed.

Lemma one_shot_completion_witness :
  let σ := exec [New 100 false] init in
  reachable σ ∧ 0 < length (heap σ) ∧ get_repeat (heap σ) 0 = false ∧
  pending σ 0 = None ∧ awaits_one_call σ 0.
Proof.
  assert (reachable (exec [New 100 false] init)) as Hr
    by (apply (reachable_call _ (New 100 false)); [constructor | exact I]).
  split_and!; [exact Hr | simpl; lia | reflexivity | reflexivity |].
  destruct one_shot_completion as [_ H].
  destruct (H _ 0 Hr ltac:(simpl; lia) eq_refl eq_refl) as (_ & _ & _ & Ho).
  exact Ho.
Defined.

Lemma started_length σ t : length (heap (started σ t)) = length (heap σ).
Proof. unfold started. simpl. by rewrite length_alter, disarmed_length. Qed.

Lemma cleared_length σ t : length (heap (cleared σ t)) = length (heap σ).
Proof. unfold cleared. simpl. apply disarmed_length. Qed.

Lemma batch_length σ o :
  inv σ → o ∈ [RunTimers; StopTimers; ClearTimers] →
  length (heap (after o σ)) = length (heap σ).
Proof.
  intros Hinv Ho.
  set (I := λ σ', inv σ' ∧ length (heap σ') = length (heap σ)).
  assert (I (after o σ)) as [_ H]; [|done].
  assert (I σ) as HI by done.
  repeat (apply elem_of_cons in Ho as [-> | Ho]);
    [apply (forEach_preserves I); [|done]..| by apply elem_of_nil in Ho].
  - intros a σ' [Hi Hl] Hin. split; [by apply inv_runTimer|].
    rewrite runTimer_eq. cbn [snd].
    destruct (get_isRunning (heap σ') a); [done | by rewrite started_length].
  - intros a σ' [Hi Hl] Hin. rewrite stopTimer_inv by done. cbn [snd].
    split; [by apply inv_disarmed | by rewrite disarmed_length].
  - intros a σ' [Hi Hl] Hin. rewrite clearTimer_inv by done. cbn [snd].
    split; [by apply inv_cleared | by rewrite cleared_length].
Qed.

Section shelved.
Context (t p : nat).

Lemma shelved_view σ σ' :
  view σ' t = view σ t → handle σ t = None → pending σ t = Some p →
  handle σ' t = None ∧ pending σ' t = Some p.
Proof.
  intros Hv Hh Hp.
  by rewrite (view_handle _ _ _ Hv), (view_pending _ _ _ Hv).
Qed.

Lemma shelved_after σ o :
  shelved t p σ → possible σ o → o ≠ Run t → shelved t p (after o σ).
Proof.
  intros (Hinv & Hlt & Hreg & Hh & Hp) Hposs Hrun.
  assert (view (disarmed σ t) t = view σ t) as Hvt
    by (rewrite disarmed_id; done).
  destruct o as [d r|a|a|a| | | |h].
  - rewrite after_New. split_and!; [by apply inv_constructed|simpl..|done|done].
    + rewrite length_app. simpl. lia.
    + rewrite elem_of_Set_add. intros [->|?]; [lia | done].
  - rewrite after_Run. assert (t ≠ a) as Hne by congruence.
    split_and!; [by apply inv_started | by rewrite started_length
                | by rewrite TIMERS_started | ..];
      by apply (shelved_view σ); [apply view_started_ne|..].
  - rewrite after_Stop.
    split_and!; [by apply inv_disarmed | by rewrite disarmed_length
                | by rewrite TIMERS_disarmed | ..];
      (apply (shelved_view σ); [|done..]);
      (destruct (decide (t = a)) as [<-|Hne];
         [done | by apply view_disarmed_ne]).
  - rewrite after_Clear by done.
    split_and!; [by apply inv_cleared | by rewrite cleared_length | ..].
    + rewrite elem_of_TIMERS_cleared. tauto.
    + apply (shelved_view σ); [|done..].
      destruct (decide (t = a)) as [<-|Hne]; [|by apply view_cleared_ne].
      unfold cleared. by rewrite view_unregistered_eq
        by apply disarmed_no_handle.
    + apply (shelved_view σ); [|done..].
      destruct (decide (t = a)) as [<-|Hne]; [|by apply view_cleared_ne].
      unfold cleared. by rewrite view_unregistered_eq
        by apply disarmed_no_handle.
  - destruct (batch_frame σ t RunTimers) as (? & ? & Hv);
      [done | done | set_solver |].
    split_and!; [done | by rewrite batch_length by (done || set_solver)
                | done | ..]; by apply (shelved_view σ).
  - destruct (batch_frame σ t StopTimers) as (? & ? & Hv);
      [done | done | set_solver |].
    split_and!; [done | by rewrite batch_length by (done || set_solver)
                | done | ..]; by apply (shelved_view σ).
  - destruct (batch_frame σ t ClearTimers) as (? & ? & Hv);
      [done | done | set_solver |].
    split_and!; [done | by rewrite batch_length by (done || set_solver)
                | done | ..]; by apply (shelved_view σ).
  - rewrite after_Fire. split_and!; [by apply inv_fired | ..];
      unfold fired, handle, pending in *;
      destruct (armed σ !! h) as [[a []]|] eqn:Ha; simpl; try done.
    rewrite lookup_delete_ne; [done|]. intros ->.
    apply (armed_owner _ Hinv) in Ha as [Ha _]. congruence.
Qed.

Lemma shelved_runs os σ :
  shelved t p σ → runs os σ → Run t ∉ os → shelved t p (exec os σ).
Proof.
  revert σ. induction os as [|o os IH]; intros σ Hs Hr Hn; [done|].
  destruct Hr as [Hp Hr]. simpl. apply IH; [|done|set_solver].
  apply shelved_after; [done..|]. set_solver.
Qed.
End shelved.

(** * Callbacks that call the API *)

Lemma enter_eq σ h : enter h σ = (Ok tt, entered σ h).
Proof.
  unfold enter, entered, bind, gets. simpl.
  by destruct (armed σ !! h) as [[this []]|].
Qed.

Lemma callPromiseResolveFunction_eq σ t :
  callPromiseResolveFunction t σ = (Ok tt, settled σ t).
Proof.
  unfold callPromiseResolveFunction, settled, bind, gets. simpl.
  by destruct (PROMISE_RESOLVE_FUNCTION_MAP σ !! t).
Qed.

Lemma script_eq os e σ :
  script os e σ =
  (match e with Returns => Ok tt | Throws => Throw ClientError end, exec os σ).
Proof. unfold script, bind, modify. by destruct e. Qed.

Lemma inv_entered σ h : inv σ → inv (entered σ h).
Proof.
  intros Hinv. unfold entered.
  destruct (armed σ !! h) as [[t k]|] eqn:Ea; [|done].
  destruct Hinv as [Hrun Harm Hub Hui Hpb Hrb Hpu Hpi Htb].
  destruct k; split; simpl; try done.
  - intros h' t' k. rewrite lookup_delete_Some. naive_solver.
  - intros p Hin. apply Hrb. set_solver.
  - intros t' p Hp Hin. apply (Hpu _ _ Hp). set_solver.
  - intros p Hin. apply Hrb. set_solver.
  - intros t' p Hp Hin. apply (Hpu _ _ Hp). set_solver.
Qed.

Lemma inv_settled σ a : inv σ → inv (settled σ a).
Proof.
  intros Hinv. unfold settled.
  destruct (PROMISE_RESOLVE_FUNCTION_MAP σ !! a) as [q|] eqn:Hq; [|done].
  destruct Hinv as [Hrun Harm Hub Hui Hpb Hrb Hpu Hpi Htb].
  split; simpl; try done.
  - intros t' p. rewrite lookup_delete_Some. naive_solver.
  - intros p [[= ->]|Hin]%elem_of_cons; eauto.
  - intros t' p [Hne Hp]%lookup_delete_Some [[= ->]|Hin]%elem_of_cons.
    + eauto.
    + by apply (Hpu _ _ Hp).
  - intros t1 t2 p. rewrite !lookup_delete_Some. naive_solver.
Qed.

Lemma after_Enter c h : after_act (Enter h) c = (armed c.2 !! h, entered c.2 h).
Proof. unfold after_act. by rewrite enter_eq. Qed.

Lemma after_Return σ t k :
  after_act Return (Some (t, k), σ) =
  (None, match k with Timeout => settled σ t | Interval => σ end).
Proof.
  unfold after_act, leave. cbn [fst snd]. destruct k; [|done].
  by rewrite callPromiseResolveFunction_eq.
Qed.

Lemma inv_after_act c a : inv c.2 → possible_act c a → inv (after_act a c).2.
Proof.
  intros Hinv Hp. destruct c as [o σ]. destruct a as [op|h| |].
  - destruct Hp as [Hp _]. by apply inv_after.
  - rewrite after_Enter. by apply inv_entered.
  - destruct o as [[t k]|]; [|done]. rewrite after_Return.
    destruct k; [by apply inv_settled | done].
  - done.
Qed.

(** The invariant also holds while a callback runs, and after callbacks that
    called the API or threw. *)
Lemma reaches_inv c : reaches c → inv c.2.
Proof.
  induction 1 as [|c a _ IH Hp]; [apply inv_init | by apply inv_after_act].
Qed.

Lemma runs_acts_reaches acts c :
  reaches c → runs_acts acts c → reaches (exec_acts acts c).
Proof.
  revert c. induction acts as [|a acts IH]; intros c Hre Hr; [done|].
  destruct Hr as [Hp Hr]. simpl. apply IH; [by constructor | done].
Qed.

(** The states reachable through calls and plain firings are among those
    reachable when callbacks call the API. *)
Lemma reachable_reaches σ : reachable σ → reaches (None, σ).
Proof.
  induction 1 as [|σ o _ IH Hp]; [constructor|].
  apply (reaches_act (None, σ) (Do o)); [done|]. by split.
Qed.

Lemma exec_acts_app l1 l2 c :
  exec_acts (l1 ++ l2) c = exec_acts l2 (exec_acts l1 c).
Proof. apply foldl_app. Qed.

Lemma exec_acts_Do os c : exec_acts (map Do os) c = (c.1, exec os c.2).
Proof.
  revert c. induction os as [|o os IH]; intros [x σ]; [done|].
  simpl. by rewrite IH.
Qed.

Lemma runs_acts_app l1 l2 c :
  runs_acts (l1 ++ l2) c ↔ runs_acts l1 c ∧ runs_acts l2 (exec_acts l1 c).
Proof.
  revert c. induction l1 as [|a l1 IH]; intros c; simpl; [tauto|].
  rewrite IH. tauto.
Qed.

Lemma runs_acts_Do os c :
  runs os c.2 → (∀ h, Fire h ∉ os) → runs_acts (map Do os) c.
Proof.
  revert c. induction os as [|o os IH]; intros [x σ] Hr Hn; [done|].
  destruct Hr as [Hp Hr]. simpl. split_and!; [done| |].
  - intros h ->. destruct (Hn h). apply list_elem_of_here.
  - apply IH; [done|]. intros h Hin. apply (Hn h).
    by apply list_elem_of_further.
Qed.

(** The closure of the source and the steps agree: the firing whose callback
    makes the calls [os] and then returns or throws leaves the state that the
    steps [firing h os e] leave, and throws exactly when the callback does. *)
Lemma fire_with_script σ h os e :
  is_Some (armed σ !! h) →
  fire_with (script os e) h σ =
  (match e with Returns => Ok tt | Throws => Throw ClientError end,
   (exec_acts (firing h os e) (None, σ)).2).
Proof.
  intros [[t k] Ha]. unfold firing. cbn [exec_acts foldl].
  fold (exec_acts (map Do os ++ [ending e]) (after_act (Enter h) (None, σ))).
  rewrite exec_acts_app, exec_acts_Do, after_Enter. cbn [fst snd].
  rewrite Ha.
  unfold fire_with, timeout_body, interval_body, callback, bind, gets.
  cbn [fst snd]. rewrite Ha. unfold entered. rewrite Ha.
  destruct k, e; simpl; rewrite ?script_eq; simpl;
    rewrite ?callPromiseResolveFunction_eq; reflexivity.
Qed.

Lemma firing_runs σ h os e :
  is_Some (armed σ !! h) → runs os (entered σ h) → (∀ h', Fire h' ∉ os) →
  runs_acts (firing h os e) (None, σ).
Proof.
  intros Ha Hr Hn. unfold firing. split; [done|].
  rewrite after_Enter. apply runs_acts_app. split.
  - by apply runs_acts_Do.
  - rewrite exec_acts_Do. cbn [fst snd]. destruct Ha as [x ->].
    destruct e; simpl; split; done.
Qed.

(** [fire h] is the firing whose callback makes no call and returns. *)
Lemma fire_firing σ h :
  is_Some (armed σ !! h) →
  fire h σ = (Ok tt, (exec_acts (firing h [] Returns) (None, σ)).2).
Proof.
  intros Ha. rewrite <- (fire_with_script σ h [] Returns Ha).
  unfold fire, fire_with, timeout_body, interval_body, callback, bind, gets.
  cbn [fst snd]. destruct Ha as [[t k] ->].
  destruct k; simpl; rewrite ?script_eq; reflexivity.
Qed.

(** A callback that throws: the closure of [startTimeout] is left before
    [callPromiseResolveFunction], and the completion stays cached. *)
Lemma throwing_callback_keeps_pending :
  let σ := exec [New 100 false; Run 0] init in
  let σ' := (fire_with (script [] Throws) 0 σ).2 in
  (fire_with (script [] Throws) 0 σ).1 = Throw ClientError ∧
  σ' = (exec_acts [Enter 0; Raise] (None, σ)).2 ∧
  log σ' = [Callback 0; SetTimeout 0 0 100] ∧
  pending σ' 0 = Some 0.
Proof. split_and!; by vm_compute. Qed.

Section shelved_acts.
Context (t p : nat).

Lemma shelved_entered σ h : shelved t p σ → shelved t p (entered σ h).
Proof.
  intros (Hinv & Hlt & Hreg & Hh & Hp).
  split; [by apply inv_entered|]. revert Hlt Hreg Hh Hp.
  unfold entered, handle, pending.
  by destruct (armed σ !! h) as [[a []]|].
Qed.

Lemma shelved_owner σ h a k :
  shelved t p σ → armed σ !! h = Some (a, k) → a ≠ t.
Proof.
  intros (Hinv & _ & _ & Hh & _) Ha ->.
  apply (armed_owner _ Hinv) in Ha as [Ha _].
  unfold handle in Hh. congruence.
Qed.

Lemma shelved_settled σ a : shelved t p σ → a ≠ t → shelved t p (settled σ a).
Proof.
  intros (Hinv & Hlt & Hreg & Hh & Hp) Hne.
  split; [by apply inv_settled|]. revert Hlt Hreg Hh Hp.
  unfold settled, handle, pending.
  destruct (PROMISE_RESOLVE_FUNCTION_MAP σ !! a); [|done]. simpl.
  by rewrite lookup_delete_ne.
Qed.

Lemma shelved_after_act c a :
  shelved t p c.2 → outside t c → possible_act c a → a ≠ Do (Run t) →
  shelved t p (after_act a c).2 ∧ outside t (after_act a c).
Proof.
  destruct c as [x σ]. intros Hs Ho Hp Hn. destruct a as [o|h| |].
  - destruct Hp as [Hp _]. split; [|done].
    apply shelved_after; [done..|]. congruence.
  - rewrite after_Enter. destruct Hp as [_ [[a k] Ha]]. cbn [fst snd] in *.
    split; [by apply shelved_entered|].
    intros k'. rewrite Ha. intros [= -> _].
    by apply (shelved_owner σ h t k).
  - destruct x as [[a k]|]; [|by destruct Hp as [? [=]]].
    rewrite after_Return. split; [|done]. cbn [snd] in *.
    destruct k; [|done]. apply shelved_settled; [done|].
    intros ->. by apply (Ho Timeout).
  - split; [done | by intros k].
Qed.

Lemma shelved_runs_acts acts c :
  shelved t p c.2 → outside t c → runs_acts acts c → Do (Run t) ∉ acts →
  shelved t p (exec_acts acts c).2 ∧ outside t (exec_acts acts c).
Proof.
  revert c. induction acts as [|a acts IH]; intros c Hs Ho Hr Hn; [done|].
  destruct Hr as [Hp Hr]. simpl.
  destruct (shelved_after_act c a) as [Hs' Ho']; [done..|set_solver|].
  apply IH; [done..|set_solver].
Qed.
End shelved_acts.

Lemma runs_acts_Do_inv os x σ :
  runs_acts (map Do os) (Some x, σ) → runs os σ ∧ ∀ h, Fire h ∉ os.
Proof.
  revert σ. induction os as [|o os IH]; intros σ Hr.
  { split; [done|]. intros h. apply not_elem_of_nil. }
  destruct Hr as [[Hp Hf] Hr]. apply IH in Hr as [Hr Hn].
  split; [by split|]. intros h [<-|Hin]%elem_of_cons; [|by apply (Hn h)].
  by specialize (Hf h eq_refl).
Qed.

Lemma awaiting_calls t p c os σ :
  awaiting t p c σ → runs os σ → (∀ h, Fire h ∉ os) →
  awaiting t p c (exec os σ).
Proof.
  revert σ. induction os as [|o os IH]; intros σ Haw Hr Hn; [done|].
  destruct Hr as [Hp Hr]. simpl.
  destruct (awaiting_after t p c σ o Haw Hp) as [Haw'|(h & -> & _)].
  - apply IH; [done..|]. intros h Hin. apply (Hn h). set_solver.
  - destruct (Hn h). apply list_elem_of_here.
Qed.

(** C10 fails when [clear] is called from the callback of the task itself:
    the timer of a one-shot task fires, its callback calls [clear] on the
    task and returns, and the closure of [startTimeout] goes on to resolve
    the completion that [clear] left cached. *)
Lemma clear_in_own_callback_resolves :
  let σ := exec [New 100 false; Run 0] init in
  log (fire_with (script [Clear 0] Returns) 0 σ).2
    = [Resolve 0; ClearTimeout 0; Callback 0; SetTimeout 0 0 100] ∧
  ¬ clear_leaves_unresolved (exec_acts [Enter 0] (None, σ)) 0.
Proof.
  split; [by vm_compute|].
  intros H. apply (H 0 [Return]).
  - reflexivity.
  - reflexivity.
  - unfold resolved. vm_compute. intros Hin.
    apply elem_of_cons in Hin as [[=]|Hin].
    apply list_elem_of_singleton in Hin. discriminate Hin.
  - vm_compute. split_and!; [lia | by intros h [=] | by eexists | done].
  - intros Hin%list_elem_of_singleton. discriminate Hin.
  - unfold resolved. vm_compute. apply list_elem_of_here.
Qed.

(** C10, amended: [clear] on a one-shot task returns and leaves the cached
    completion cached and unresolved, wherever it is called.  When it is
    called while the callback of the task itself is not running, the
    completion stays cached and unresolved through every later sequence of
    calls, firings and callbacks (which may call the API, return or throw) in
    which [run] is not called on the cleared task.  When it is called from
    the callback of the task itself, the completion stays unresolved while
    the callback runs, whatever else it calls, and is resolved as soon as the
    callback returns. *)
Theorem clear_keeps_completion_pending c t p :
  reaches c → t < length (heap c.2) → get_repeat (heap c.2) t = false →
  pending c.2 t = Some p →
  let c' := after_act (Do (Clear t)) c in
  (clear t c.2).1 = Ok tt ∧
  pending c'.2 t = Some p ∧ ¬ resolved c'.2 p ∧
  (outside t c →
   ∀ acts, runs_acts acts c' → Do (Run t) ∉ acts →
     pending (exec_acts acts c').2 t = Some p ∧
     ¬ resolved (exec_acts acts c').2 p) ∧
  (c.1 = Some (t, Timeout) →
   ∀ os, runs_acts (map Do os) c' →
     ¬ resolved (exec_acts (map Do os) c').2 p ∧
     resolved (exec_acts (map Do os ++ [Return]) c').2 p).
Proof.
  intros Hinv%reaches_inv Hlt Hr Hp. destruct c as [x σ]. cbn [fst snd] in *.
  cbv zeta. change (after_act (Do (Clear t)) (x, σ)) with (x, after (Clear t) σ).
  cbn [fst snd]. rewrite after_Clear by done.
  unfold clear. rewrite clearTimer_inv by done. cbn [fst snd].
  assert (shelved t p (cleared σ t)) as Hs.
  { split_and!; [by apply inv_cleared | by rewrite cleared_length | ..].
    - rewrite elem_of_TIMERS_cleared. tauto.
    - unfold cleared, handle. simpl. apply lookup_delete_eq.
    - unfold cleared, pending. simpl.
      pose proof (disarmed_pending_timeout σ t Hr) as H.
      unfold pending in *. by rewrite H. }
  assert (∀ σ', shelved t p σ' → pending σ' t = Some p ∧ ¬ resolved σ' p) as Hq.
  { intros σ' (Hi & _ & _ & _ & Hp'). split; [done|].
    by apply (pending_unresolved _ Hi t). }
  split_and!; [done | by apply Hq | by apply Hq | |].
  - intros Ho acts Hruns Hn. apply Hq.
    by apply (shelved_runs_acts t p acts (x, cleared σ t)).
  - intros -> os Hruns. apply runs_acts_Do_inv in Hruns as [Hruns Hn].
    assert (awaiting t p (calls (cleared σ t) t) (cleared σ t)) as Haw.
    { destruct Hs as (Hi & Hl & _ & _ & Hp').
      split_and!; [done | done | | done | done].
      by rewrite cleared_repeat. }
    pose proof (awaiting_calls _ _ _ os _ Haw Hruns Hn) as Haw'.
    rewrite exec_acts_app, exec_acts_Do. cbn [fst snd]. split.
    + by apply (awaiting_unresolved _ _ _ _ Haw').
    + cbn [exec_acts foldl]. rewrite after_Return. cbn [snd].
      destruct Haw' as (_ & _ & _ & Hp' & _). unfold pending in Hp'.
      unfold resolved, settled. rewrite Hp'. apply list_elem_of_here.
Qed.

Lemma clear_keeps_completion_pending_witness :
  let c := exec_acts [Do (New 100 false); Do (New 50 false); Do (Run 0);
                      Do (Run 1); Enter 1] (None, init) in
  let c' := after_act (Do (Clear 0)) c in
  reaches c ∧ c.1 = Some (1, Timeout) ∧ pending c.2 0 = Some 0 ∧
  armed c.2 !! 0 = Some (0, Timeout) ∧
  runs_acts [Return; Do RunTimers] c' ∧
  resolved (exec_acts [Return; Do RunTimers] c').2 1 ∧
  pending (exec_acts [Return; Do RunTimers] c').2 0 = Some 0 ∧
  ¬ resolved (exec_acts [Return; Do RunTimers] c').2 0.
Proof.
  assert (reaches (exec_acts [Do (New 100 false); Do (New 50 false); Do (Run 0);
                              Do (Run 1); Enter 1] (None, init))) as Hr.
  { apply (reaches_act _ (Enter 1)); [|vm_compute; split; [done | by eexists]].
    apply (reaches_act _ (Do (Run 1))); [|vm_compute; split; [lia | done]].
    apply (reaches_act _ (Do (Run 0))); [|vm_compute; split; [lia | done]].
    apply (reaches_act _ (Do (New 50 false))); [|split; [exact I | done]].
    apply (reaches_act _ (Do (New 100 false))); [|split; [exact I | done]].
    constructor. }
  assert (runs_acts [Return; Do RunTimers]
            (after_act (Do (Clear 0))
               (exec_acts [Do (New 100 false); Do (New 50 false); Do (Run 0);
                           Do (Run 1); Enter 1] (None, init)))) as Hruns.
  { vm_compute. split_and!; [by eexists | done | done | done]. }
  split_and!; [exact Hr | reflexivity | reflexivity | reflexivity | exact Hruns
              | unfold resolved; vm_compute; apply list_elem_of_here | |];
    destruct (clear_keeps_completion_pending _ 0 0 Hr ltac:(vm_compute; lia)
                eq_refl eq_refl) as (_ & _ & _ & H & _);
    destruct (H ltac:(by intros k [=]) [Return; Do RunTimers] Hruns) as [Hp Hu];
      try assumption;
      intros [[=]|[[=]|[]%elem_of_nil]%elem_of_cons]%elem_of_cons.
Defined.

(** * Further properties of the operations *)

(** X1: in every reachable state a task stores a native handle ([hasTimer])
    exactly when its [isRunning] flag is set. *)
Theorem stored_handle_iff_running σ t :
  reachable σ → hasTimer σ t = true ↔ get_isRunning (heap σ) t = true.
Proof.
  intros Hinv%reachable_inv. rewrite (running_iff _ Hinv). unfold hasTimer.
  destruct (UUID_MAP σ !! t) as [h|].
  - split; [eauto | done].
  - split; [done | by intros []].
Qed.

Lemma stored_handle_iff_running_witness :
  let σ := exec [New 100 false; Run 0] init in
  reachable σ ∧ (hasTimer σ 0 = true ↔ get_isRunning (heap σ) 0 = true).
Proof.
  assert (reachable (exec [New 100 false; Run 0] init)) as Hr.
  { apply (reachable_call _ (Run 0)); [|vm_compute; lia].
    apply (reachable_call _ (New 100 false)); [constructor | exact I]. }
  split; [exact Hr | exact (stored_handle_iff_running _ 0 Hr)].
Defined.

(** X2: in every reachable state an armed native timer is the one whose
    handle its owner stores: the owner is running, the timer is an interval
    exactly when the owner repeats, and no task owns two armed timers. *)
Theorem one_armed_timer_per_task σ h t k :
  reachable σ → armed σ !! h = Some (t, k) →
  handle σ t = Some h ∧ get_isRunning (heap σ) t = true ∧
  k = (if get_repeat (heap σ) t then Interval else Timeout) ∧
  h < next_uuid σ ∧
  ∀ h' k', armed σ !! h' = Some (t, k') → h' = h.
Proof.
  intros Hinv%reachable_inv Ha.
  destruct (armed_owner _ Hinv _ _ _ Ha) as [Hh ->]. split_and!; [done| |done| |].
  - apply (running_iff _ Hinv). eauto.
  - by apply (uuid_bound _ Hinv t).
  - intros h' k' Ha'. destruct (armed_owner _ Hinv _ _ _ Ha') as [Hh' _].
    congruence.
Qed.

Lemma one_armed_timer_per_task_witness :
  let σ := exec [New 100 true; Run 0; Run 0] init in
  reachable σ ∧ armed σ !! 1 = Some (0, Interval) ∧
  ∀ h' k', armed σ !! h' = Some (0, k') → h' = 1.
Proof.
  assert (reachable (exec [New 100 true; Run 0; Run 0] init)) as Hr.
  { apply (reachable_call _ (Run 0)); [|vm_compute; lia].
    apply (reachable_call _ (Run 0)); [|vm_compute; lia].
    apply (reachable_call _ (New 100 true)); [constructor | exact I]. }
  assert (armed (exec [New 100 true; Run 0; Run 0] init) !! 1
          = Some (0, Interval)) as Ha by (vm_compute; reflexivity).
  split_and!; [exact Hr | exact Ha |].
  destruct (one_armed_timer_per_task _ 1 0 Interval Hr Ha) as (_ & _ & _ & _ & H).
  exact H.
Defined.

Lemma disarmed_next_uuid σ t : next_uuid (disarmed σ t) = next_uuid σ.
Proof. unfold disarmed. by destruct (UUID_MAP σ !! t). Qed.

(** X3: [run] on a constructed task returns a promise and never throws, in
    whatever state the task is.  Afterwards the task is running and stores the
    handle of a freshly armed native timer of its kind, the timer it stored
    before is disarmed, the registry is unchanged and so is every other
    task. *)
Theorem run_starts σ t :
  reachable σ → t < length (heap σ) →
  ∃ σ', run t σ = (Ok (next_promise σ), σ') ∧
    get_isRunning (heap σ') t = true ∧
    handle σ' t = Some (next_uuid σ) ∧
    armed σ' !! next_uuid σ
      = Some (t, if get_repeat (heap σ) t then Interval else Timeout) ∧
    (∀ h, handle σ t = Some h → armed σ' !! h = None) ∧
    TIMERS σ' = TIMERS σ ∧
    (∀ t', t' ≠ t → view σ' t' = view σ t').
Proof.
  intros Hinv%reachable_inv Hlt. exists (started σ t).
  split; [apply run_eq|]. unfold started, handle.
  split_and!.
  - simpl. apply get_isRunning_alter_eq. by rewrite disarmed_length.
  - simpl. by rewrite lookup_insert_eq, disarmed_next_uuid.
  - simpl. by rewrite disarmed_next_uuid, lookup_insert_eq, disarmed_repeat.
  - intros h Hh. pose proof (uuid_bound _ Hinv _ _ Hh). simpl.
    rewrite disarmed_next_uuid, lookup_insert_ne by lia.
    unfold disarmed. rewrite Hh. simpl. apply lookup_delete_eq.
  - simpl. apply TIMERS_disarmed.
  - intros t' Hne. by apply (view_started_ne σ t' t).
Qed.

Lemma run_starts_witness :
  let σ := exec [New 100 false; New 20 true] init in
  reachable σ ∧ 1 < length (heap σ) ∧
  ∃ σ', run 1 σ = (Ok 0, σ') ∧ armed σ' !! 0 = Some (1, Interval) ∧
        view σ' 0 = view σ 0.
Proof.
  assert (reachable (exec [New 100 false; New 20 true] init)) as Hr.
  { apply (reachable_call _ (New 20 true)); [|exact I].
    apply (reachable_call _ (New 100 false)); [constructor | exact I]. }
  assert (1 < length (heap (exec [New 100 false; New 20 true] init))) as Hl
    by (vm_compute; lia).
  split_and!; [exact Hr | exact Hl |].
  destruct (run_starts _ 1 Hr Hl) as (σ' & Hrun & _ & _ & Ha & _ & _ & Hf).
  exists σ'. split_and!; [exact Hrun | exact Ha | apply Hf; lia].
Defined.

(** X4: the promise [run] returns is new (not resolved, cached for no task),
    and it is never left dangling: after the call it is either the cached
    completion of the task, unresolved, or already resolved. *)
Theorem run_returns_fresh_promise σ t :
  reachable σ →
  let p := next_promise σ in
  (run t σ).1 = Ok p ∧
  ¬ resolved σ p ∧ (∀ t', pending σ t' ≠ Some p) ∧
  (pending (run t σ).2 t = Some p ∧ ¬ resolved (run t σ).2 p ∨
   resolved (run t σ).2 p ∧ pending (run t σ).2 t ≠ Some p).
Proof.
  intros Hinv%reachable_inv. cbv zeta. rewrite run_eq. cbn [fst snd].
  pose proof (resolved_bound _ Hinv (next_promise σ)) as Hrb.
  assert (¬ resolved σ (next_promise σ)) as Hfresh
    by (intros Hin%Hrb; lia).
  split_and!; [done | done | |].
  - intros t' Hp%(pending_bound _ Hinv). lia.
  - pose proof (inv_disarmed σ t Hinv) as Hinv0.
    pose proof (resolved_bound _ Hinv0) as Hrb0.
    pose proof (pending_bound _ Hinv0 t) as Hpb0.
    unfold started, pending, resolved in *. simpl.
    rewrite disarmed_next_promise in *.
    destruct (PROMISE_RESOLVE_FUNCTION_MAP (disarmed σ t) !! t) as [q|] eqn:Hq.
    + right. split; [apply list_elem_of_here|]. rewrite Hq.
      intros [= ->]. specialize (Hpb0 _ eq_refl). lia.
    + left. rewrite lookup_insert_eq. split; [done|].
      intros [Hs|Hin]%elem_of_cons; [|apply Hrb0 in Hin; lia].
      unfold start_event in Hs. by destruct (get_repeat _ _).
Qed.

Lemma run_returns_fresh_promise_witness :
  let σ := exec [New 100 false; Run 0] init in
  reachable σ ∧ (run 0 σ).1 = Ok 1 ∧ ¬ resolved σ 1.
Proof.
  assert (reachable (exec [New 100 false; Run 0] init)) as Hr.
  { apply (reachable_call _ (Run 0)); [|vm_compute; lia].
    apply (reachable_call _ (New 100 false)); [constructor | exact I]. }
  split; [exact Hr|].
  destruct (run_returns_fresh_promise _ 0 Hr) as (H1 & H2 & _).
  split; [exact H1 | exact H2].
Defined.

Lemma fired_interval σ h t :
  armed σ !! h = Some (t, Interval) →
  fired σ h = mkWorld (heap σ) (TIMERS σ) (UUID_MAP σ)
                (PROMISE_RESOLVE_FUNCTION_MAP σ) (armed σ) (next_uuid σ)
                (next_promise σ) (Callback t :: log σ).
Proof. intros Ha. unfold fired. by rewrite Ha. Qed.

Lemma interval_firings σ h t n :
  armed σ !! h = Some (t, Interval) →
  let σ' := exec (replicate n (Fire h)) σ in
  runs (replicate n (Fire h)) σ ∧
  log σ' = replicate n (Callback t) ++ log σ ∧
  calls σ' t = n + calls σ t ∧
  armed σ' = armed σ ∧ heap σ' = heap σ ∧
  (∀ t', view σ' t' = view σ t') ∧
  (∀ p, resolved σ' p ↔ resolved σ p).
Proof.
  cbv zeta. revert σ. induction n as [|n IH]; intros σ Ha.
  { simpl. split_and!; done. }
  simpl. rewrite after_Fire.
  pose proof (fired_interval σ h t Ha) as Hf.
  destruct (IH (fired σ h))
    as (Hruns & Hlog & Hcalls & Harm & Hheap & Hview & Hres).
  { by rewrite Hf. }
  split_and!.
  - by exists (t, Interval).
  - done.
  - rewrite Hlog, Hf. simpl.
    by rewrite cons_middle, app_assoc, <- replicate_cons_app.
  - rewrite Hcalls. unfold calls. rewrite Hf. simpl.
    rewrite filter_cons_True by done. simpl. lia.
  - by rewrite Harm, Hf.
  - by rewrite Hheap, Hf.
  - intros t'. rewrite Hview. unfold view. by rewrite Hf.
  - intros p. rewrite Hres. unfold resolved. rewrite Hf. simpl.
    rewrite elem_of_cons. split; [by intros [?|?] | by right].
Qed.

(** X5: the timer of a repeating task can fire any number of times: each
    firing invokes the callback and nothing else; the timer stays armed, no
    task changes and no completion is resolved. *)
Theorem interval_fires_repeatedly σ h t k n :
  reachable σ → get_repeat (heap σ) t = true → armed σ !! h = Some (t, k) →
  let σ' := exec (replicate n (Fire h)) σ in
  runs (replicate n (Fire h)) σ ∧
  log σ' = replicate n (Callback t) ++ log σ ∧
  calls σ' t = n + calls σ t ∧
  armed σ' = armed σ ∧
  (∀ t', view σ' t' = view σ t') ∧
  (∀ p, resolved σ' p ↔ resolved σ p).
Proof.
  intros Hinv%reachable_inv Hr Ha.
  destruct (armed_owner _ Hinv _ _ _ Ha) as [_ Hk].
  rewrite Hr in Hk. simpl in Hk. subst k.
  destruct (interval_firings σ h t n Ha) as (? & ? & ? & ? & _ & ? & ?).
  done.
Qed.

Lemma interval_fires_repeatedly_witness :
  let σ := exec [New 100 true; Run 0] init in
  reachable σ ∧ get_repeat (heap σ) 0 = true ∧
  armed σ !! 0 = Some (0, Interval) ∧
  calls (exec (replicate 3 (Fire 0)) σ) 0 = 3 + calls σ 0.
Proof.
  assert (reachable (exec [New 100 true; Run 0] init)) as Hr.
  { apply (reachable_call _ (Run 0)); [|vm_compute; lia].
    apply (reachable_call _ (New 100 true)); [constructor | exact I]. }
  assert (armed (exec [New 100 true; Run 0] init) !! 0 = Some (0, Interval))
    as Ha by (vm_compute; reflexivity).
  assert (get_repeat (heap (exec [New 100 true; Run 0] init)) 0 = true)
    as Hrep by (vm_compute; reflexivity).
  split_and!; [exact Hr | exact Hrep | exact Ha |].
  destruct (interval_fires_repeatedly _ 0 0 Interval 3 Hr Hrep Ha)
    as (_ & _ & Hc & _).
  exact Hc.
Defined.

(** X7: the guards of [stopInterval] and [stopTimeout] throw their own
    [TypeError] without touching the state when no handle is stored, and
    return otherwise; [stop] never lets them throw: its only error is its
    own, raised with the state unchanged, and [run] raises none. *)
Theorem stop_guards :
  (∀ σ t, handle σ t = None →
     stopInterval t σ = (Throw (TypeError interval_message), σ) ∧
     stopTimeout t σ = (Throw (TypeError timeout_message), σ)) ∧
  (∀ σ t h, handle σ t = Some h →
     (stopInterval t σ).1 = Ok tt ∧ (stopTimeout t σ).1 = Ok tt) ∧
  (∀ σ t e, (stop t σ).1 = Throw e →
     e = TypeError stop_message ∧ (stop t σ).2 = σ) ∧
  (∀ σ t e, (run t σ).1 ≠ Throw e).
Proof.
  split_and!.
  - intros σ t Hh. unfold handle in Hh.
    unfold stopInterval, stopTimeout, bind, gets. by rewrite Hh.
  - intros σ t h Hh. unfold handle in Hh.
    unfold stopInterval, stopTimeout, callPromiseResolveFunction, bind, gets.
    rewrite Hh. simpl.
    by destruct (PROMISE_RESOLVE_FUNCTION_MAP σ !! t).
  - intros σ t e. destruct (UUID_MAP σ !! t) as [h|] eqn:Hh.
    + by rewrite (stop_Some _ _ _ Hh).
    + rewrite (stop_None _ _ Hh). simpl. by intros [= <-].
  - intros σ t e. by rewrite run_eq.
Qed.

Lemma stop_guards_witness :
  let σ := exec [New 100 true] init in
  handle σ 0 = None ∧
  stopInterval 0 σ = (Throw (TypeError interval_message), σ).
Proof.
  split; [reflexivity|].
  destruct stop_guards as (H & _). by apply (H _ 0).
Defined.

Lemma Set_delete_idemp x s : Set_delete x (Set_delete x s) = Set_delete x s.
Proof.
  unfold Set_delete. induction s as [|y s IH]; [done|].
  destruct (decide (y = x)) as [->|Hne].
  - by rewrite filter_cons_False by (intros ?; done).
  - rewrite filter_cons_True by done. rewrite filter_cons_True by done.
    by rewrite IH.
Qed.

Lemma cleared_idemp σ t : cleared (cleared σ t) t = cleared σ t.
Proof.
  unfold cleared at 1.
  rewrite (disarmed_id (cleared σ t) t)
    by (unfold cleared; simpl; apply lookup_delete_eq).
  unfold cleared, unregistered. simpl.
  rewrite Set_delete_idemp. f_equal.
  apply delete_id, lookup_delete_eq.
Qed.

(** X8: in a reachable state [clear] returns normally, whatever the task's
    state.  It removes the task from the registry and keeps the order of the
    others, leaves the task as [stopTimer] leaves it (idle, without handle,
    without armed timer), leaves the other tasks alone, and a second [clear]
    changes nothing. *)
Theorem clear_spec σ t :
  reachable σ →
  ∃ σ', clear t σ = (Ok tt, σ') ∧
    TIMERS σ' = filter (λ t', t' ≠ t) (TIMERS σ) ∧
    get_isRunning (heap σ') t = false ∧ handle σ' t = None ∧
    (∀ h k, armed σ' !! h ≠ Some (t, k)) ∧
    view σ' t = view (stopTimer t σ).2 t ∧
    (∀ t', t' ≠ t → view σ' t' = view σ t') ∧
    clear t σ' = (Ok tt, σ').
Proof.
  intros Hinv%reachable_inv. exists (cleared σ t).
  pose proof (inv_cleared σ t Hinv) as Hinv'.
  assert (view (cleared σ t) t
          = stop_view (get_repeat (heap σ) t) (view σ t)) as Hv
    by apply view_cleared_eq.
  destruct (stopped_view_idle σ (cleared σ t) t Hinv Hinv' Hv) as (? & ? & ?).
  split_and!; try done.
  - unfold clear. by apply clearTimer_inv.
  - unfold cleared. simpl. by rewrite TIMERS_disarmed.
  - by rewrite view_stopTimer.
  - intros t' Hne. by apply view_cleared_ne.
  - unfold clear. rewrite clearTimer_inv by done. by rewrite cleared_idemp.
Qed.

Lemma clear_spec_witness :
  let σ := exec [New 100 false; New 20 true; Run 0; Run 1] init in
  reachable σ ∧
  ∃ σ', clear 1 σ = (Ok tt, σ') ∧ TIMERS σ' = [0] ∧ view σ' 0 = view σ 0.
Proof.
  assert (reachable (exec [New 100 false; New 20 true; Run 0; Run 1] init))
    as Hr.
  { apply (reachable_call _ (Run 1)); [|vm_compute; lia].
    apply (reachable_call _ (Run 0)); [|vm_compute; lia].
    apply (reachable_call _ (New 20 true)); [|exact I].
    apply (reachable_call _ (New 100 false)); [constructor | exact I]. }
  split; [exact Hr|].
  destruct (clear_spec _ 1 Hr) as (σ' & Hc & HT & _ & _ & _ & _ & Hf & _).
  exists σ'. split_and!; [exact Hc | | apply Hf; lia].
  rewrite HT. vm_compute. reflexivity.
Defined.

(** X9: a task that is not registered (it was cleared) and is run again runs
    outside the registry: after [runTimers], [stopTimers] or [clearTimers] it
    is still running with its native timer armed, and still unregistered. *)
Theorem rerun_escapes_registry σ t o :
  reachable σ → t < length (heap σ) → t ∉ TIMERS σ →
  o ∈ [RunTimers; StopTimers; ClearTimers] →
  let σ' := after o (after (Run t) σ) in
  (t ∉ TIMERS σ') ∧ get_isRunning (heap σ') t = true ∧
  ∃ h, handle σ' t = Some h ∧
       armed σ' !! h
         = Some (t, if get_repeat (heap σ) t then Interval else Timeout).
Proof.
  intros Hinv%reachable_inv Hlt Ht Ho. cbv zeta. rewrite after_Run.
  pose proof (inv_started σ t Hinv Hlt) as Hinv1.
  destruct (batch_frame (started σ t) t o) as (Hinv2 & Hn & Hv);
    [done | by rewrite TIMERS_started | done |].
  assert (view (started σ t) t
          = (true, Some (next_uuid σ),
             PROMISE_RESOLVE_FUNCTION_MAP (started σ t) !! t,
             Some (t, kind_of (get_repeat (heap σ) t)))) as Hs.
  { unfold view, started. simpl.
    rewrite get_isRunning_alter_eq by (by rewrite disarmed_length).
    rewrite lookup_insert_eq. simpl.
    by rewrite lookup_insert_eq, disarmed_repeat, disarmed_next_uuid. }
  rewrite Hs in Hv. unfold view in Hv.
  injection Hv as Hrun Hh Hp Ha.
  split_and!; [done | done |].
  exists (next_uuid σ). unfold handle. split; [done|].
  rewrite Hh in Ha. exact Ha.
Qed.

Lemma armed_for_view σ σ' t :
  view σ' t = view σ t →
  get_repeat (heap σ') t = get_repeat (heap σ) t →
  armed_for t σ → armed_for t σ'.
Proof.
  unfold view, armed_for, handle. intros [= _ Hh _ Ha] Hr (h & Hs & Harm).
  exists h. rewrite Hr, Hh. split; [done|].
  rewrite Hh, Hs in Ha. simpl in Ha. by rewrite Ha.
Qed.

Lemma armed_for_running σ t :
  inv σ → armed_for t σ → get_isRunning (heap σ) t = true.
Proof. intros Hinv (h & Hh & _). apply (running_iff _ Hinv). by exists h. Qed.

Lemma armed_for_rearmed σ t :
  armed_for t (rearmed σ t).
Proof.
  exists (next_uuid σ). unfold handle. simpl.
  by rewrite !lookup_insert_eq, get_repeat_alter.
Qed.

Lemma rearmed_repeat σ t t' :
  get_repeat (heap (rearmed σ t)) t' = get_repeat (heap σ) t'.
Proof. simpl. apply get_repeat_alter. Qed.

Lemma runTimer_cases σ a :
  inv σ →
  (get_isRunning (heap σ) a = true ∧ (runTimer a σ).2 = σ) ∨
  (get_isRunning (heap σ) a = false ∧ (runTimer a σ).2 = rearmed σ a).
Proof.
  intros Hinv. rewrite runTimer_state by done.
  destruct (get_isRunning (heap σ) a); [by left | by right].
Qed.

Lemma run_loop_keeps_armed l σ t :
  inv σ → armed_for t σ → armed_for t (forEach runTimer l σ).2.
Proof.
  intros Hinv Ha.
  assert (inv (forEach runTimer l σ).2 ∧ armed_for t (forEach runTimer l σ).2)
    as [_ H]; [|done].
  apply (forEach_preserves (λ σ', inv σ' ∧ armed_for t σ')); [|done].
  intros a σ' [Hi Hat] Hin. split; [by apply inv_runTimer|].
  destruct (runTimer_cases σ' a Hi) as [[_ ->]|[Hidle ->]]; [done|].
  assert (t ≠ a) as Hne.
  { intros ->. apply (armed_for_running _ _ Hi) in Hat. congruence. }
  apply (armed_for_view σ'); [by apply view_rearmed_ne | apply rearmed_repeat
                             | done].
Qed.

Lemma run_loop_frame l σ t :
  inv σ → t ∉ TIMERS σ ∨ get_isRunning (heap σ) t = true →
  view (forEach runTimer l σ).2 t = view σ t.
Proof.
  intros Hinv Ht.
  set (I := λ σ', inv σ' ∧ TIMERS σ' = TIMERS σ ∧ view σ' t = view σ t).
  assert (I (forEach runTimer l σ).2) as (_ & _ & H); [|done].
  apply (forEach_preserves I); [|done].
  intros a σ' (Hi & HT & Hv) Hin. split; [by apply inv_runTimer|].
  destruct (runTimer_cases σ' a Hi) as [[_ ->]|[Hidle ->]]; [done|].
  split; [done|]. rewrite <- Hv. apply view_rearmed_ne; [done|].
  intros ->. destruct Ht as [Ht|Ht]; [by rewrite HT in Hin|].
  unfold view in Hv. injection Hv as Hrun _ _ _. congruence.
Qed.

Lemma run_loop_TIMERS l σ : inv σ → TIMERS (forEach runTimer l σ).2 = TIMERS σ.
Proof.
  intros Hinv.
  assert (inv (forEach runTimer l σ).2 ∧
          TIMERS (forEach runTimer l σ).2 = TIMERS σ) as [_ H]; [|done].
  apply (forEach_preserves (λ σ', inv σ' ∧ TIMERS σ' = TIMERS σ)); [|done].
  intros a σ' [Hi HT] Hin. split; [by apply inv_runTimer|].
  by destruct (runTimer_cases σ' a Hi) as [[_ ->]|[_ ->]].
Qed.

Lemma run_loop_arms l σ t :
  inv σ → t ∈ l → t ∈ TIMERS σ → get_isRunning (heap σ) t = false →
  armed_for t (forEach runTimer l σ).2.
Proof.
  revert σ. induction l as [|a l IH]; intros σ Hinv Hl Ht Hidle.
  { by apply elem_of_nil in Hl. }
  rewrite forEach_cons. destruct (decide (a = t)) as [->|Hne].
  - rewrite bool_decide_eq_true_2 by done.
    rewrite (surjective_pairing (runTimer t σ)).
    destruct (runTimer_cases σ t Hinv) as [[? _]|[_ Hs]]; [congruence|].
    rewrite runTimer_eq at 1. cbn [fst]. rewrite Hs.
    apply run_loop_keeps_armed; [|apply armed_for_rearmed].
    rewrite <- Hs. by apply inv_runTimer.
  - assert (t ∈ l) as Hl' by set_solver.
    case_bool_decide as Ha; [|by apply IH].
    rewrite (surjective_pairing (runTimer a σ)).
    rewrite runTimer_eq at 1. cbn [fst].
    destruct (runTimer_cases σ a Hinv) as [[_ ->]|[Hia Hs]]; [by apply IH|].
    rewrite Hs. apply IH; [|done|done|].
    + rewrite <- Hs. by apply inv_runTimer.
    + simpl. by rewrite get_isRunning_alter_ne.
Qed.

Lemma run_loop_pending l σ t p :
  inv σ → pending σ t = Some p → pending (forEach runTimer l σ).2 t = Some p.
Proof.
  intros Hinv Hp.
  assert (inv (forEach runTimer l σ).2 ∧
          pending (forEach runTimer l σ).2 t = Some p) as [_ H]; [|done].
  apply (forEach_preserves (λ σ', inv σ' ∧ pending σ' t = Some p)); [|done].
  intros a σ' [Hi Hq] Hin. split; [by apply inv_runTimer|].
  destruct (runTimer_cases σ' a Hi) as [[_ ->]|[_ ->]]; [done|].
  destruct (decide (t = a)) as [<-|Hne].
  - unfold pending in *. simpl. by rewrite Hq.
  - rewrite <- Hq. by apply view_pending, view_rearmed_ne.
Qed.

(** X10: in a reachable state [runTimers] returns normally and keeps the
    registry.  Afterwards every registered task is running and stores a
    handle; the registered tasks that were idle own a freshly armed native
    timer of their kind; cached completions stay cached and unresolved; the
    tasks that were running or are unregistered are not touched. *)
Theorem runTimers_spec σ :
  reachable σ →
  ∃ σ', runTimers σ = (Ok tt, σ') ∧
    TIMERS σ' = TIMERS σ ∧
    (∀ t, t ∈ TIMERS σ →
       get_isRunning (heap σ') t = true ∧ hasTimer σ' t = true) ∧
    (∀ t, t ∈ TIMERS σ → get_isRunning (heap σ) t = false →
       ∃ h, handle σ' t = Some h ∧
            armed σ' !! h
              = Some (t, if get_repeat (heap σ) t then Interval else Timeout)) ∧
    (∀ t p, pending σ t = Some p → pending σ' t = Some p ∧ ¬ resolved σ' p) ∧
    (∀ t, t ∉ TIMERS σ ∨ get_isRunning (heap σ) t = true →
       view σ' t = view σ t).
Proof.
  intros Hinv%reachable_inv. exists (forEach runTimer (TIMERS σ) σ).2.
  assert (inv (forEach runTimer (TIMERS σ) σ).2) as Hinv'.
  { apply (forEach_preserves inv); [|done]. intros; by apply inv_runTimer. }
  assert (∀ t, get_repeat (heap (forEach runTimer (TIMERS σ) σ).2) t
               = get_repeat (heap σ) t) as Hrep.
  { intros t.
    apply (forEach_preserves
             (λ σ', inv σ' ∧ get_repeat (heap σ') t = get_repeat (heap σ) t));
      [|done].
    intros a σ' [Hi Hr] Hin. split; [by apply inv_runTimer|].
    destruct (runTimer_cases σ' a Hi) as [[_ ->]|[_ ->]]; [done|].
    by rewrite rearmed_repeat. }
  assert (∀ t, get_isRunning (heap (forEach runTimer (TIMERS σ) σ).2) t = true
               → hasTimer (forEach runTimer (TIMERS σ) σ).2 t = true) as Hhas.
  { intros t [h Hh]%(running_iff _ Hinv'). unfold hasTimer. by rewrite Hh. }
  split_and!.
  - unfold runTimers. rewrite TIMERS_forEach_eq.
    rewrite (surjective_pairing (forEach _ _ _)). f_equal.
    apply (forEach_returns inv); [| |done].
    + intros; by apply inv_runTimer.
    + intros t σ' _ _. by rewrite runTimer_eq.
  - by apply run_loop_TIMERS.
  - intros t Ht.
    assert (get_isRunning (heap (forEach runTimer (TIMERS σ) σ).2) t = true)
      as Hrun; [|by auto].
    destruct (get_isRunning (heap σ) t) eqn:Hr.
    + pose proof (run_loop_frame (TIMERS σ) σ t Hinv (or_intror Hr)) as Hv.
      unfold view in Hv. injection Hv as -> _ _ _. done.
    + by apply armed_for_running, run_loop_arms.
  - intros t Ht Hidle.
    destruct (run_loop_arms (TIMERS σ) σ t Hinv Ht Ht Hidle) as (h & Hh & Ha).
    exists h. rewrite Hrep in Ha. done.
  - intros t p Hp. pose proof (run_loop_pending (TIMERS σ) σ t p Hinv Hp) as Hq.
    split; [done|]. by apply (pending_unresolved _ Hinv' t).
  - intros t Ht. by apply run_loop_frame.
Qed.

Lemma runTimers_spec_witness :
  let σ := exec [New 100 false; New 20 true; Run 0; Stop 0] init in
  reachable σ ∧
  ∃ σ', runTimers σ = (Ok tt, σ') ∧ get_isRunning (heap σ') 1 = true ∧
        pending σ' 0 = Some 0.
Proof.
  assert (reachable (exec [New 100 false; New 20 true; Run 0; Stop 0] init))
    as Hr.
  { apply (reachable_call _ (Stop 0)); [|vm_compute; lia].
    apply (reachable_call _ (Run 0)); [|vm_compute; lia].
    apply (reachable_call _ (New 20 true)); [|exact I].
    apply (reachable_call _ (New 100 false)); [constructor | exact I]. }
  split; [exact Hr|].
  destruct (runTimers_spec _ Hr) as (σ' & Hs & _ & Hrun & _ & Hp & _).
  exists σ'. split_and!; [exact Hs | |].
  - apply (Hrun 1). apply (list_elem_of_further 1 0 [1]), list_elem_of_here.
  - apply (Hp 0 0). vm_compute. reflexivity.
Defined.

Lemma rerun_escapes_registry_witness :
  let σ := exec [New 100 false; Clear 0] init in
  reachable σ ∧ 0 < length (heap σ) ∧ (0 ∉ TIMERS σ) ∧
  get_isRunning (heap (after StopTimers (after (Run 0) σ))) 0 = true.
Proof.
  assert (reachable (exec [New 100 false; Clear 0] init)) as Hr.
  { apply (reachable_call _ (Clear 0)); [|vm_compute; lia].
    apply (reachable_call _ (New 100 false)); [constructor | exact I]. }
  assert (0 < length (heap (exec [New 100 false; Clear 0] init))) as Hl
    by (vm_compute; lia).
  assert (0 ∉ TIMERS (exec [New 100 false; Clear 0] init)) as Hn
    by (vm_compute; apply not_elem_of_nil).
  split_and!; [exact Hr | exact Hl | exact Hn |].
  destruct (rerun_escapes_registry _ 0 StopTimers Hr Hl Hn) as (_ & H & _).
  - apply list_elem_of_further, list_elem_of_here.
  - exact H.
Defined.

(** X11: pausing and resuming all timers keeps the completion of a one-shot
    task: after [stopTimers] and [runTimers] it is still cached and
    unresolved, the callback has not run, the task is running, and the firing
    of the re-armed timer invokes the callback and resolves it. *)
Theorem pause_resume_keeps_completion σ t p :
  reachable σ → t ∈ TIMERS σ → get_repeat (heap σ) t = false →
  pending σ t = Some p →
  let σ' := exec [StopTimers; RunTimers] σ in
  pending σ' t = Some p ∧ ¬ resolved σ' p ∧ calls σ' t = calls σ t ∧
  get_isRunning (heap σ') t = true ∧
  ∃ h, handle σ' t = Some h ∧ armed σ' !! h = Some (t, Timeout) ∧
       log (after (Fire h) σ') = Resolve p :: Callback t :: log σ'.
Proof.
  intros Hinv%reachable_inv Ht Hr Hp. cbv zeta.
  assert (awaiting t p (calls σ t) σ) as Haw.
  { split_and!; try done. by apply (timers_bound _ Hinv). }
  change (exec [StopTimers; RunTimers] σ)
    with (after RunTimers (after StopTimers σ)).
  destruct (awaiting_after _ _ _ σ StopTimers Haw I) as [Haw1|(h & ? & _)];
    [|done].
  destruct (awaiting_after _ _ _ _ RunTimers Haw1 I) as [Haw2|(h & ? & _)];
    [|done].
  pose proof Haw1 as (Hinv1 & _). pose proof Haw2 as (Hinv2 & _ & Hr2 & Hp2 & Hc2).
  assert (TIMERS (after StopTimers σ) = TIMERS σ) as HT.
  { apply (forEach_preserves (λ σ', inv σ' ∧ TIMERS σ' = TIMERS σ)); [|done].
    intros a σ' [Hi HT'] _. rewrite stopTimer_inv by done. cbn [snd].
    split; [by apply inv_disarmed | by rewrite TIMERS_disarmed]. }
  assert (get_isRunning (heap (after StopTimers σ)) t = false) as Hidle.
  { apply (stopped_view_idle σ); [done..|].
    unfold after, call, stopTimers. rewrite TIMERS_forEach_eq.
    rewrite (stopping_loop_view stopTimer disarmed stopTimer_inv inv_disarmed
               view_disarmed_eq
               (λ σ a t Hi Hne, view_disarmed_ne σ t a Hi Hne)
               (λ σ a t, disarmed_repeat σ a t)); [| |done].
    - by rewrite bool_decide_eq_true_2.
    - intros; by rewrite TIMERS_disarmed. }
  assert (armed_for t (after RunTimers (after StopTimers σ))) as (h & Hh & Ha).
  { unfold after at 1. unfold call, runTimers. rewrite TIMERS_forEach_eq.
    apply run_loop_arms; [done | by rewrite HT | by rewrite HT | done]. }
  rewrite Hr2 in Ha. simpl in Ha.
  split_and!; [done | by apply (awaiting_unresolved t p (calls σ t))
              | done | by apply (running_iff _ Hinv2); exists h |].
  exists h. split_and!; [done | done |].
  rewrite after_Fire.
  destruct (awaiting_fired _ _ _ _ h Haw2) as [Haw3|[_ Hl]]; [|done].
  destruct Haw3 as (_ & _ & _ & Hp3 & _).
  unfold pending, fired in Hp3. rewrite Ha in Hp3. simpl in Hp3.
  by rewrite lookup_delete_eq in Hp3.
Qed.

Lemma pause_resume_keeps_completion_witness :
  let σ := exec [New 100 false; Run 0] init in
  reachable σ ∧ 0 ∈ TIMERS σ ∧ get_repeat (heap σ) 0 = false ∧
  pending σ 0 = Some 0 ∧
  pending (exec [StopTimers; RunTimers] σ) 0 = Some 0.
Proof.
  assert (reachable (exec [New 100 false; Run 0] init)) as Hr.
  { apply (reachable_call _ (Run 0)); [|vm_compute; lia].
    apply (reachable_call _ (New 100 false)); [constructor | exact I]. }
  assert (0 ∈ TIMERS (exec [New 100 false; Run 0] init)) as Hin
    by (vm_compute; apply list_elem_of_here).
  assert (get_repeat (heap (exec [New 100 false; Run 0] init)) 0 = false)
    as Hrep by (vm_compute; reflexivity).
  assert (pending (exec [New 100 false; Run 0] init) 0 = Some 0) as Hp
    by (vm_compute; reflexivity).
  split_and!; [exact Hr | exact Hin | exact Hrep | exact Hp |].
  destruct (pause_resume_keeps_completion _ 0 0 Hr Hin Hrep Hp) as (H & _).
  exact H.
Defined.

Lemma stopTimers_TIMERS σ : inv σ → TIMERS (after StopTimers σ) = TIMERS σ.
Proof.
  intros Hinv.
  apply (forEach_preserves (λ σ', inv σ' ∧ TIMERS σ' = TIMERS σ)); [|done].
  intros a σ' [Hi HT'] _. rewrite stopTimer_inv by done. cbn [snd].
  split; [by apply inv_disarmed | by rewrite TIMERS_disarmed].
Qed.

Lemma stopTimers_idle σ t :
  inv σ → t ∈ TIMERS σ → get_isRunning (heap (after StopTimers σ)) t = false.
Proof.
  intros Hinv Ht. apply (stopped_view_idle σ); [done | by apply inv_after |].
  unfold after, call, stopTimers. rewrite TIMERS_forEach_eq.
  rewrite (stopping_loop_view stopTimer disarmed stopTimer_inv inv_disarmed
             view_disarmed_eq
             (λ σ a t Hi Hne, view_disarmed_ne σ t a Hi Hne)
             (λ σ a t, disarmed_repeat σ a t)); [| |done].
  - by rewrite bool_decide_eq_true_2.
  - intros; by rewrite TIMERS_disarmed.
Qed.

Lemma runTimers_running σ t :
  inv σ → t ∈ TIMERS σ → get_isRunning (heap (after RunTimers σ)) t = true.
Proof.
  intros Hinv Ht. unfold after, call, runTimers. rewrite TIMERS_forEach_eq.
  destruct (get_isRunning (heap σ) t) eqn:Hr.
  - pose proof (run_loop_frame (TIMERS σ) σ t Hinv (or_intror Hr)) as Hv.
    unfold view in Hv. injection Hv as -> _ _ _. done.
  - apply armed_for_running; [|by apply run_loop_arms].
    apply (forEach_preserves inv); [|done]. intros; by apply inv_runTimer.
Qed.

Lemma clearTimers_empty σ : inv σ → TIMERS (after ClearTimers σ) = [].
Proof.
  intros Hinv. apply elem_of_nil_inv. intros t Ht.
  unfold after, call, clearTimers in Ht. rewrite TIMERS_forEach_eq in Ht.
  apply (clear_loop_absent (TIMERS σ) σ t); [done| |done].
  by apply (clear_loop_subset (TIMERS σ) σ).
Qed.

Lemma stop_loop_noop l σ :
  (∀ t, t ∈ TIMERS σ → get_isRunning (heap σ) t = false) →
  forEach stopTimer l σ = (Ok tt, σ).
Proof.
  intros Hidle. induction l as [|a l IH]; [done|].
  rewrite forEach_cons. case_bool_decide as Ha; [|done].
  rewrite stopTimer_eq, (Hidle a Ha). done.
Qed.

Lemma run_loop_noop l σ :
  (∀ t, t ∈ TIMERS σ → get_isRunning (heap σ) t = true) →
  forEach runTimer l σ = (Ok tt, σ).
Proof.
  intros Hrun. induction l as [|a l IH]; [done|].
  rewrite forEach_cons. case_bool_decide as Ha; [|done].
  rewrite runTimer_eq, (Hrun a Ha). done.
Qed.

(** X12: each batch operation is idempotent: called a second time in a row it
    returns and changes nothing. *)
Theorem batch_idempotent σ o :
  reachable σ → o ∈ [RunTimers; StopTimers; ClearTimers] →
  call o (after o σ) = (Ok tt, after o σ).
Proof.
  intros Hinv%reachable_inv Ho.
  repeat (apply elem_of_cons in Ho as [-> | Ho]);
    [..| by apply elem_of_nil in Ho].
  - cbn [call]. unfold runTimers at 1. rewrite TIMERS_forEach_eq.
    apply run_loop_noop. intros t Ht.
    assert (TIMERS (after RunTimers σ) = TIMERS σ) as HT
      by (by apply run_loop_TIMERS).
    assert (inv (after RunTimers σ)) as Hinv' by (by apply inv_after).
    destruct (get_isRunning (heap (after RunTimers σ)) t) eqn:Hr; [done|].
    rewrite HT in Ht. pose proof (runTimers_running σ t Hinv Ht). congruence.
  - cbn [call]. unfold stopTimers at 1. rewrite TIMERS_forEach_eq.
    apply stop_loop_noop. intros t Ht.
    rewrite stopTimers_TIMERS in Ht by done. by apply stopTimers_idle.
  - cbn [call]. unfold clearTimers at 1. rewrite TIMERS_forEach_eq.
    by rewrite clearTimers_empty.
Qed.

Lemma batch_idempotent_witness :
  let σ := exec [New 100 false; New 20 true; Run 1] init in
  reachable σ ∧
  call StopTimers (after StopTimers σ) = (Ok tt, after StopTimers σ).
Proof.
  assert (reachable (exec [New 100 false; New 20 true; Run 1] init)) as Hr.
  { apply (reachable_call _ (Run 1)); [|vm_compute; lia].
    apply (reachable_call _ (New 20 true)); [|exact I].
    apply (reachable_call _ (New 100 false)); [constructor | exact I]. }
  split; [exact Hr|].
  apply (batch_idempotent _ StopTimers Hr).
  apply list_elem_of_further, list_elem_of_here.
Defined.

Lemma fired_static σ h :
  heap (fired σ h) = heap σ ∧ TIMERS (fired σ h) = TIMERS σ ∧
  UUID_MAP (fired σ h) = UUID_MAP σ.
Proof. unfold fired. by destruct (armed σ !! h) as [[t []]|]. Qed.

Lemma NoDup_Set_add x s : NoDup s → NoDup (Set_add x s).
Proof.
  intros Hs. unfold Set_add. case_bool_decide as Hx; [done|].
  apply NoDup_app. split_and!; [done | | apply NoDup_singleton].
  intros y Hy ->%list_elem_of_singleton. done.
Qed.

Lemma NoDup_after σ o :
  inv σ → possible σ o → NoDup (TIMERS σ) → NoDup (TIMERS (after o σ)).
Proof.
  intros Hinv Hp Hnd. destruct o as [d r|t|t|t| | | |h].
  - rewrite after_New. simpl. by apply NoDup_Set_add.
  - by rewrite after_Run, TIMERS_started.
  - by rewrite after_Stop, TIMERS_disarmed.
  - rewrite after_Clear by done. unfold cleared. simpl.
    rewrite TIMERS_disarmed. by apply NoDup_filter.
  - unfold after, call, runTimers. rewrite TIMERS_forEach_eq.
    by rewrite run_loop_TIMERS.
  - by rewrite stopTimers_TIMERS.
  - rewrite clearTimers_empty by done. apply NoDup_nil_2.
  - rewrite after_Fire. by destruct (fired_static σ h) as (_ & -> & _).
Qed.

Lemma reachable_NoDup σ : reachable σ → NoDup (TIMERS σ).
Proof.
  induction 1 as [|σ o Hr IH Hp]; [apply NoDup_nil_2|].
  apply NoDup_after; [by apply reachable_inv | done | done].
Qed.

(** X13: the constructor returns a new object with the given fields and
    [isRunning = false], registers it at the end of the registry and leaves
    every task, the armed timers and the log as they were; the registry never
    lists a task twice and lists constructed tasks only. *)
Theorem constructor_registers σ d r :
  reachable σ →
  let this := length (heap σ) in
  ∃ σ', new d r σ = (Ok this, σ') ∧
    heap σ' !! this = Some (mkTimer d r false) ∧
    TIMERS σ' = TIMERS σ ++ [this] ∧
    NoDup (TIMERS σ') ∧ (∀ t, t ∈ TIMERS σ' → t < length (heap σ')) ∧
    hasTimer σ' this = false ∧ armed σ' = armed σ ∧ log σ' = log σ ∧
    (∀ t, view σ' t = view σ t).
Proof.
  intros Hr. pose proof (reachable_inv _ Hr) as Hinv. cbv zeta.
  exists (constructed σ d r). split; [apply new_eq|].
  assert (reachable (constructed σ d r)) as Hr'
    by (rewrite <- after_New; by constructor).
  split_and!; try done.
  - simpl. rewrite lookup_app_r by done. by rewrite Nat.sub_diag.
  - simpl. unfold Set_add. rewrite bool_decide_eq_false_2; [done|].
    intros Hin%(timers_bound _ Hinv). lia.
  - by apply reachable_NoDup.
  - apply (timers_bound _ (reachable_inv _ Hr')).
  - unfold hasTimer. simpl.
    destruct (UUID_MAP σ !! length (heap σ)) eqn:E; [|done].
    apply (inv_handle_lt _ _ _ Hinv) in E. lia.
  - intros t. unfold view. simpl. by rewrite get_isRunning_app.
Qed.

Lemma constructor_registers_witness :
  let σ := exec [New 100 false; Clear 0] init in
  reachable σ ∧ ∃ σ', new 20 true σ = (Ok 1, σ') ∧ TIMERS σ' = [1].
Proof.
  assert (reachable (exec [New 100 false; Clear 0] init)) as Hr.
  { apply (reachable_call _ (Clear 0)); [|vm_compute; lia].
    apply (reachable_call _ (New 100 false)); [constructor | exact I]. }
  split; [exact Hr|].
  destruct (constructor_registers _ 20 true Hr) as (σ' & Hn & _ & HT & _).
  exists σ'. split; [exact Hn | exact HT].
Defined.

Lemma unregistered_after σ t o :
  inv σ → t < length (heap σ) → t ∉ TIMERS σ → possible σ o →
  t < length (heap (after o σ)) ∧ (t ∉ TIMERS (after o σ)).
Proof.
  intros Hinv Hlt Ht Hp. destruct o as [d r|a|a|a| | | |h].
  - rewrite after_New. simpl. rewrite length_app, elem_of_Set_add. simpl.
    split; [lia|]. intros [->|?]; [lia | done].
  - by rewrite after_Run, started_length, TIMERS_started.
  - by rewrite after_Stop, disarmed_length, TIMERS_disarmed.
  - rewrite after_Clear by done. rewrite cleared_length.
    split; [done|]. rewrite elem_of_TIMERS_cleared. tauto.
  - destruct (batch_frame σ t RunTimers) as (_ & ? & _);
      [done | done | set_solver|].
    by rewrite batch_length by (done || set_solver).
  - destruct (batch_frame σ t StopTimers) as (_ & ? & _);
      [done | done | set_solver|].
    by rewrite batch_length by (done || set_solver).
  - destruct (batch_frame σ t ClearTimers) as (_ & ? & _);
      [done | done | set_solver|].
    by rewrite batch_length by (done || set_solver).
  - rewrite after_Fire. by destruct (fired_static σ h) as (-> & -> & _).
Qed.

(** X14: deregistration is final: no sequence of calls and firings, [run] on
    the task included, puts an unregistered task back into the registry. *)
Theorem deregistration_is_final σ t os :
  reachable σ → t < length (heap σ) → t ∉ TIMERS σ → runs os σ →
  t ∉ TIMERS (exec os σ).
Proof.
  intros Hinv%reachable_inv. revert σ Hinv.
  induction os as [|o os IH]; intros σ Hinv Hlt Ht Hruns; [done|].
  destruct Hruns as [Hp Hruns]. simpl.
  destruct (unregistered_after σ t o Hinv Hlt Ht Hp) as [Hlt' Ht'].
  apply IH; [by apply inv_after | done..].
Qed.

Lemma deregistration_is_final_witness :
  let σ := exec [New 100 false; Clear 0] init in
  reachable σ ∧ 0 < length (heap σ) ∧ (0 ∉ TIMERS σ) ∧
  runs [Run 0; New 5 true; RunTimers] σ ∧
  (0 ∉ TIMERS (exec [Run 0; New 5 true; RunTimers] σ)).
Proof.
  assert (reachable (exec [New 100 false; Clear 0] init)) as Hr.
  { apply (reachable_call _ (Clear 0)); [|vm_compute; lia].
    apply (reachable_call _ (New 100 false)); [constructor | exact I]. }
  assert (0 < length (heap (exec [New 100 false; Clear 0] init))) as Hl
    by (vm_compute; lia).
  assert (0 ∉ TIMERS (exec [New 100 false; Clear 0] init)) as Hn
    by (vm_compute; apply not_elem_of_nil).
  assert (runs [Run 0; New 5 true; RunTimers]
            (exec [New 100 false; Clear 0] init)) as Hruns
    by (vm_compute; split_and!; (lia || exact I)).
  split_and!; [exact Hr | exact Hl | exact Hn | exact Hruns |].
  exact (deregistration_is_final _ 0 _ Hr Hl Hn Hruns).
Defined.

Lemma once_cons_other e l :
  (∀ p, e ≠ Resolve p) → once l → once (e :: l).
Proof. intros He Hl p. rewrite filter_cons_False by apply He. apply Hl. Qed.

Lemma once_cons_resolve q l : Resolve q ∉ l → once l → once (Resolve q :: l).
Proof.
  intros Hq Hl p. destruct (decide (p = q)) as [->|Hne].
  - rewrite filter_cons_True by done. simpl.
    assert (filter (λ e, e = Resolve q) l = []) as ->; [|simpl; lia].
    clear Hl. induction l as [|e l IH]; [done|].
    rewrite filter_cons_False by set_solver. apply IH. set_solver.
  - rewrite filter_cons_False by congruence. apply Hl.
Qed.

Lemma once_disarmed σ t : inv σ → once (log σ) → once (log (disarmed σ t)).
Proof.
  intros Hinv Ho. unfold disarmed.
  destruct (UUID_MAP σ !! t) as [h|]; [|done]. simpl. unfold stop_events.
  destruct (get_repeat (heap σ) t); [|by apply once_cons_other].
  destruct (PROMISE_RESOLVE_FUNCTION_MAP σ !! t) as [p|] eqn:Hp; simpl.
  - apply once_cons_resolve; [|by apply once_cons_other].
    rewrite not_elem_of_cons. split; [done|].
    by apply (pending_unresolved _ Hinv t).
  - by apply once_cons_other.
Qed.

Lemma once_rearmed σ t : inv σ → once (log σ) → once (log (rearmed σ t)).
Proof.
  intros Hinv Ho. simpl.
  assert (once (start_event σ t :: log σ)) as Hs.
  { apply once_cons_other; [|done]. intros p. unfold start_event.
    by destruct (get_repeat (heap σ) t). }
  destruct (PROMISE_RESOLVE_FUNCTION_MAP σ !! t); [|done].
  apply once_cons_resolve; [|done]. rewrite not_elem_of_cons. split.
  - unfold start_event. by destruct (get_repeat (heap σ) t).
  - intros Hin%(resolved_bound _ Hinv). lia.
Qed.

Lemma once_fired σ h : inv σ → once (log σ) → once (log (fired σ h)).
Proof.
  intros Hinv Ho. rewrite log_fired.
  destruct (armed σ !! h) as [[t k]|]; [|done]. unfold fire_events.
  destruct k; [|by apply once_cons_other].
  destruct (PROMISE_RESOLVE_FUNCTION_MAP σ !! t) as [p|] eqn:Hp; simpl.
  - apply once_cons_resolve; [|by apply once_cons_other].
    rewrite not_elem_of_cons. split; [done|].
    by apply (pending_unresolved _ Hinv t).
  - by apply once_cons_other.
Qed.

Lemma once_after σ o :
  inv σ → possible σ o → once (log σ) → once (log (after o σ)).
Proof.
  intros Hinv Hp Ho.
  set (I := λ σ', inv σ' ∧ once (log σ')).
  assert (∀ a σ', I σ' → I (disarmed σ' a)) as Hd.
  { intros a σ' [Hi Hl]. split; [by apply inv_disarmed | by apply once_disarmed]. }
  assert (∀ a σ', I σ' → a < length (heap σ') → I (started σ' a)) as Hs.
  { intros a σ' HI Hlt. destruct (Hd a σ' HI) as [Hi Hl].
    split; [apply inv_started; [apply HI | done]|].
    by apply once_rearmed. }
  assert (I σ) as HI by done.
  assert (I (after o σ)) as [_ H]; [|done].
  destruct o as [d r|t|t|t| | | |h].
  - rewrite after_New. split; [by apply inv_constructed | done].
  - rewrite after_Run. by apply Hs.
  - rewrite after_Stop. by apply Hd.
  - rewrite after_Clear by done.
    destruct (Hd t σ HI) as [_ Hl]. split; [by apply inv_cleared | done].
  - apply (forEach_preserves I); [|done]. intros a σ' HI' Hin.
    rewrite runTimer_eq. cbn [snd].
    destruct (get_isRunning (heap σ') a); [done|]. apply Hs; [done|].
    by apply (timers_bound _ (proj1 HI')).
  - apply (forEach_preserves I); [|done]. intros a σ' HI' Hin.
    rewrite stopTimer_inv by apply HI'. by apply Hd.
  - apply (forEach_preserves I); [|done]. intros a σ' HI' Hin.
    rewrite clearTimer_inv by apply HI'. cbn [snd].
    destruct (Hd a σ' HI') as [_ Hl].
    split; [apply inv_cleared, HI' | done].
  - rewrite after_Fire. split; [by apply inv_fired | by apply once_fired].
Qed.

Lemma reachable_once σ : reachable σ → once (log σ).
Proof.
  induction 1 as [|σ o Hr IH Hp]; [intros p; simpl; lia|].
  apply once_after; [by apply reachable_inv | done | done].
Qed.

(** X15: in every reachable state the resolve function of a promise has been
    called at most once, and a resolved completion is cached for no task. *)
Theorem resolved_at_most_once σ p :
  reachable σ →
  resolutions σ p ≤ 1 ∧ (resolved σ p → ∀ t, pending σ t ≠ Some p).
Proof.
  intros Hr. split.
  - by apply reachable_once.
  - intros Hres t Hp.
    by apply (pending_unresolved _ (reachable_inv _ Hr) t p).
Qed.

Lemma resolved_at_most_once_witness :
  let σ := exec [New 100 true; Run 0; Run 0; Stop 0] init in
  reachable σ ∧ resolutions σ 0 ≤ 1.
Proof.
  assert (reachable (exec [New 100 true; Run 0; Run 0; Stop 0] init)) as Hr.
  { apply (reachable_call _ (Stop 0)); [|vm_compute; lia].
    apply (reachable_call _ (Run 0)); [|vm_compute; lia].
    apply (reachable_call _ (Run 0)); [|vm_compute; lia].
    apply (reachable_call _ (New 100 true)); [constructor | exact I]. }
  split; [exact Hr|]. exact (proj1 (resolved_at_most_once _ 0 Hr)).
Defined.

Lemma silent_disarmed t c σ a : silent t c σ → silent t c (disarmed σ a).
Proof.
  intros (Hinv & Hh & Hc). split_and!; [by apply inv_disarmed | |].
  - destruct (decide (t = a)) as [<-|Hne]; [apply disarmed_no_handle|].
    rewrite <- Hh. by apply view_handle, view_disarmed_ne.
  - rewrite <- Hc. apply quiet_calls, quiet_disarmed.
Qed.

Lemma silent_cleared t c σ a : silent t c σ → silent t c (cleared σ a).
Proof.
  intros Hs. destruct (silent_disarmed t c σ a Hs) as (_ & Hh & Hc).
  destruct Hs as (Hinv & _). split_and!; [by apply inv_cleared | | done].
  unfold cleared, handle in *. simpl.
  destruct (decide (t = a)) as [<-|Hne];
    [apply lookup_delete_eq | by rewrite lookup_delete_ne].
Qed.

Lemma silent_after t c σ o :
  silent t c σ → possible σ o → o ≠ Run t → o ≠ RunTimers →
  silent t c (after o σ).
Proof.
  intros Hs Hp Hrun Hall. pose proof Hs as (Hinv & Hh & Hc).
  destruct o as [d r|a|a|a| | | |h].
  - rewrite after_New. split_and!; [by apply inv_constructed | done | done].
  - rewrite after_Run. assert (t ≠ a) as Hne by congruence.
    split_and!; [by apply inv_started | |].
    + rewrite <- Hh. by apply view_handle, view_started_ne.
    + rewrite <- Hc. apply quiet_calls, quiet_started.
  - rewrite after_Stop. by apply silent_disarmed.
  - rewrite after_Clear by done. by apply silent_cleared.
  - done.
  - apply (forEach_preserves (silent t c)); [|done]. intros a σ' Hs' _.
    rewrite stopTimer_inv by apply Hs'. by apply silent_disarmed.
  - apply (forEach_preserves (silent t c)); [|done]. intros a σ' Hs' _.
    rewrite clearTimer_inv by apply Hs'. by apply silent_cleared.
  - rewrite after_Fire. split_and!; [by apply inv_fired | |].
    + unfold handle. by destruct (fired_static σ h) as (_ & _ & ->).
    + rewrite <- Hc. unfold calls. rewrite log_fired.
      destruct (armed σ !! h) as [[a k]|] eqn:Ha; [|done].
      assert (a ≠ t) as Hne.
      { intros ->. apply (armed_owner _ Hinv) in Ha as [Ha _].
        unfold handle in Hh. congruence. }
      rewrite filter_app, length_app.
      assert (filter (λ e, e = Callback t) (fire_events σ a k) = []) as ->;
        [|done].
      unfold fire_events.
      destruct k, (PROMISE_RESOLVE_FUNCTION_MAP σ !! a);
        rewrite ?filter_cons_False, ?filter_nil by congruence; done.
Qed.

(** X16: the callback of a task without stored handle is not invoked:
    whatever is called and whichever timers fire, its count stands still and
    it stays without handle until [run] is called on it or [runTimers] is
    called. *)
Theorem idle_task_is_silent σ t os :
  reachable σ → hasTimer σ t = false → runs os σ →
  Run t ∉ os → RunTimers ∉ os →
  calls (exec os σ) t = calls σ t ∧ hasTimer (exec os σ) t = false.
Proof.
  intros Hinv%reachable_inv Hh Hruns Hn1 Hn2.
  assert (silent t (calls σ t) σ) as Hs.
  { split_and!; [done| |done]. unfold hasTimer, handle in *.
    by destruct (UUID_MAP σ !! t). }
  assert (∀ c σ', silent t c σ' → runs os σ' → silent t c (exec os σ'))
    as Hgen.
  { clear Hs Hruns Hh Hinv. induction os as [|o os IH];
      intros c σ' Hs Hruns; [done|].
    destruct Hruns as [Hp Hruns]. simpl.
    apply IH; [set_solver | set_solver | | done].
    apply silent_after; [done | done | set_solver | set_solver]. }
  destruct (Hgen _ _ Hs Hruns) as (_ & Hh' & Hc).
  split; [done|]. unfold hasTimer, handle in *. by rewrite Hh'.
Qed.

Lemma idle_task_is_silent_witness :
  let σ := exec [New 100 true; New 20 true; Run 0; Run 1; Stop 0] init in
  reachable σ ∧ hasTimer σ 0 = false ∧
  runs [Fire 1; StopTimers; Run 1; Fire 2] σ ∧
  calls (exec [Fire 1; StopTimers; Run 1; Fire 2] σ) 0 = calls σ 0.
Proof.
  assert (reachable
            (exec [New 100 true; New 20 true; Run 0; Run 1; Stop 0] init))
    as Hr.
  { apply (reachable_call _ (Stop 0)); [|vm_compute; lia].
    apply (reachable_call _ (Run 1)); [|vm_compute; lia].
    apply (reachable_call _ (Run 0)); [|vm_compute; lia].
    apply (reachable_call _ (New 20 true)); [|exact I].
    apply (reachable_call _ (New 100 true)); [constructor | exact I]. }
  assert (hasTimer
            (exec [New 100 true; New 20 true; Run 0; Run 1; Stop 0] init) 0
          = false) as Hh by (vm_compute; reflexivity).
  assert (runs [Fire 1; StopTimers; Run 1; Fire 2]
            (exec [New 100 true; New 20 true; Run 0; Run 1; Stop 0] init))
    as Hruns.
  { vm_compute. split_and!; try exact I; try lia;
      [by exists (1, Interval) | by exists (1, Interval)]. }
  split_and!; [exact Hr | exact Hh | exact Hruns |].
  refine (proj1 (idle_task_is_silent _ 0 _ Hr Hh Hruns _ _)).
  - intros Hin. repeat (apply elem_of_cons in Hin as [Hin|Hin]; [discriminate|]).
    by apply elem_of_nil in Hin.
  - intros Hin. repeat (apply elem_of_cons in Hin as [Hin|Hin]; [discriminate|]).
    by apply elem_of_nil in Hin.
Defined.

(** X6: the handle that [run] returns for a repeating task without cached
    completion stays unresolved however often the timer fires, and the next
    [stop] resolves it; by then the callback has run once per firing. *)
Theorem interval_completion_resolves_at_stop σ t n :
  reachable σ → t < length (heap σ) → get_repeat (heap σ) t = true →
  pending σ t = None →
  let p := next_promise σ in
  let σ1 := (run t σ).2 in
  let σ2 := exec (replicate n (Fire (next_uuid σ))) σ1 in
  (run t σ).1 = Ok p ∧ runs (replicate n (Fire (next_uuid σ))) σ1 ∧
  ¬ resolved σ2 p ∧ calls σ2 t = n + calls σ t ∧
  (stop t σ2).1 = Ok tt ∧
  log (stop t σ2).2 = Resolve p :: ClearInterval (next_uuid σ) :: log σ2 ∧
  calls (stop t σ2).2 t = n + calls σ t.
Proof.
  intros Hinv%reachable_inv Hlt Hr Hp. cbv zeta. rewrite run_eq. cbn [fst snd].
  pose proof (inv_started σ t Hinv Hlt) as Hinv1.
  assert (armed (started σ t) !! next_uuid σ = Some (t, Interval)) as Ha.
  { unfold started. simpl.
    by rewrite disarmed_next_uuid, lookup_insert_eq, disarmed_repeat, Hr. }
  assert (pending (started σ t) t = Some (next_promise σ)) as Hp1.
  { unfold started, pending. simpl.
    pose proof (disarmed_pending_None σ t Hp) as Hp'. unfold pending in Hp'.
    by rewrite Hp', lookup_insert_eq, disarmed_next_promise. }
  assert (handle (started σ t) t = Some (next_uuid σ)) as Hh1.
  { unfold started, handle. simpl.
    by rewrite lookup_insert_eq, disarmed_next_uuid. }
  destruct (interval_firings (started σ t) (next_uuid σ) t n Ha)
    as (Hruns & Hlog & Hcalls & Harm & Hheap & Hview & Hres).
  set (σ2 := exec (replicate n (Fire (next_uuid σ))) (started σ t)) in *.
  assert (calls (started σ t) t = calls σ t) as Hc1
    by apply quiet_calls, quiet_started.
  assert (handle σ2 t = Some (next_uuid σ)) as Hh2
    by (by rewrite (view_handle _ _ _ (Hview t))).
  assert (pending σ2 t = Some (next_promise σ)) as Hp2
    by (by rewrite (view_pending _ _ _ (Hview t))).
  assert (get_repeat (heap σ2) t = true) as Hr2.
  { rewrite Hheap. unfold started. simpl.
    by rewrite get_repeat_alter, disarmed_repeat. }
  rewrite (stop_Some _ _ _ Hh2). cbn [fst snd].
  assert (log (stopped σ2 t (next_uuid σ))
          = Resolve (next_promise σ) :: ClearInterval (next_uuid σ) :: log σ2)
    as Hl.
  { simpl. unfold stop_events. unfold pending in Hp2. by rewrite Hr2, Hp2. }
  split_and!; try done.
  - rewrite Hres. by apply (pending_unresolved _ Hinv1 t).
  - by rewrite Hcalls, Hc1.
  - unfold calls in *. rewrite Hl.
    rewrite !filter_cons_False by congruence. by rewrite Hcalls, Hc1.
Qed.

Lemma interval_completion_resolves_at_stop_witness :
  let σ := exec [New 100 true] init in
  reachable σ ∧ 0 < length (heap σ) ∧ get_repeat (heap σ) 0 = true ∧
  pending σ 0 = None ∧
  calls (stop 0 (exec (replicate 3 (Fire 0)) (run 0 σ).2)).2 0 = 3.
Proof.
  assert (reachable (exec [New 100 true] init)) as Hr
    by (apply (reachable_call _ (New 100 true)); [constructor | exact I]).
  assert (0 < length (heap (exec [New 100 true] init))) as Hl
    by (vm_compute; lia).
  split_and!; [exact Hr | exact Hl | reflexivity | reflexivity |].
  destruct (interval_completion_resolves_at_stop _ 0 3 Hr Hl eq_refl eq_refl)
    as (_ & _ & _ & _ & _ & _ & Hc).
  exact Hc.
Defined.
